(** * wake: ListenForQuitSignal and WaitWithTimeout (util.go)

    The two functions of package [wake] are embedded as small-step machines
    whose program points are the lines of util.go.  The pieces of the Go
    runtime they call (error values, [errors.Is], [context.Context],
    buffered channels, package [os/signal], [time.After]) are modelled first;
    the scheduler and the outside world are explicit actions of a schedule,
    so every interleaving of the call with cancellations, signal deliveries,
    clock ticks and the spawned goroutine is covered. *)

From Stdlib Require Import ZArith Lia DecimalString.
From stdpp Require Import gmap strings list fin_maps pretty.

Local Open Scope Z_scope.

(** ** Error values *)

(** A Go [error] is an interface value.  The dynamic types the package
    itself produces are [*errors.errorString] (from [errors.New]),
    [*fmt.wrapError] (from [fmt.Errorf] with one [%w] verb) and
    [context.deadlineExceededError].  The first two are pointers: [p] is the
    address, and [==] compares it.  The [wait] function of a caller may
    return an error of a type of its own: [customError] is a value of such a
    type, one that has neither an [Is] nor an [Unwrap] method; [comparable]
    says whether the type supports [==] (a struct or a pointer does, a slice
    or a map does not), [p] identifies the value and [msg] is what its
    [Error] method returns. *)
Inductive error : Type :=
| errorString (p : positive) (s : string)
| wrapError (p : positive) (msg : string) (err : error)
| deadlineExceededError
| customError (comparable : bool) (p : positive) (msg : string).

(** [nil] is [None]. *)
Abbreviation goerror := (option error).

(** The method [Error]. *)
Definition Error (e : error) : string :=
  match e with
  | errorString _ s => s
  | wrapError _ msg _ => msg
  | deadlineExceededError => "context deadline exceeded"
  | customError _ _ msg => msg
  end.

(** The method [Unwrap], where the dynamic type has one. *)
Definition Unwrap (e : error) : goerror :=
  match e with
  | wrapError _ _ err => Some err
  | _ => None
  end.

(** [reflectlite.TypeOf(e).Comparable()]: does the dynamic type of [e]
    support [==]. *)
Definition comparable (e : error) : bool :=
  match e with
  | customError c _ _ => c
  | _ => true
  end.

(** [==] on two non-nil interface values: same dynamic type and same
    pointer or value; the empty struct [deadlineExceededError] equals
    itself.  On two values of one type that is not comparable Go panics
    instead of answering; [errors.Is] never asks then (see [errors_is]), and
    the answer given here is [false]. *)
Definition error_eqb (a b : error) : bool :=
  match a, b with
  | errorString p _, errorString q _ => bool_decide (p = q)
  | wrapError p _ _, wrapError q _ _ => bool_decide (p = q)
  | deadlineExceededError, deadlineExceededError => true
  | customError true p _, customError true q _ => bool_decide (p = q)
  | _, _ => false
  end.

(** The loop of [errors.is]: compare if the target is comparable, then
    follow [Unwrap].  (None of the types above has an [Is] method.) *)
Fixpoint errors_is (err target : error) (targetComparable : bool) : bool :=
  (targetComparable && error_eqb err target) ||
  match err with
  | wrapError _ _ inner => errors_is inner target targetComparable
  | _ => false
  end.

(** [errors.Is]. *)
Definition errors_Is (err target : goerror) : bool :=
  match err, target with
  | Some e, Some t => errors_is e t (comparable t)
  | None, None => true
  | _, _ => false
  end.

(** Package-level error variables live at fixed, distinct addresses; the
    heap hands out addresses from [first_heap_ptr] on. *)
Definition ErrReceivedQuitSignal : error :=
  errorString 1 "received quit signal".

Definition ErrWaitDeadlineExceeded : error :=
  errorString 2 "wait func didn't complete within timeout".

Definition context_Canceled : error := errorString 3 "context canceled".

Definition context_DeadlineExceeded : error := deadlineExceededError.

Definition first_heap_ptr : positive := 4.

(** [fmt.Errorf] with the format ["%s: %w"]: a fresh [*fmt.wrapError] at
    address [p] whose message is the two operands joined by [": "]. *)
Definition fmt_Errorf_s_w (p : positive) (s : string) (err : error) : error :=
  wrapError p (s +:+ ": " +:+ Error err) err.

(** What a caller does when it propagates an error upward: any number of
    further [%w] layers, each with its own address and message. *)
Definition wrap_layers (layers : list (positive * string)) (e : error) : error :=
  foldr (λ l acc, wrapError l.1 l.2 acc) e layers.

(** ** Signals *)

(** [os.Signal] values are [syscall.Signal] numbers (linux numbering). *)
Abbreviation Signal := Z (only parsing).

Definition SIGINT : Signal := 2.
Definition SIGQUIT : Signal := 3.
Definition SIGKILL : Signal := 9.
Definition SIGTERM : Signal := 15.
Definition SIGSTOP : Signal := 19.
Definition os_Interrupt : Signal := SIGINT.

(** The table [syscall.signals] (linux): the names of the signals 1 to 31. *)
Definition signals : list string :=
  [ ""; "hangup"; "interrupt"; "quit"; "illegal instruction";
    "trace/breakpoint trap"; "aborted"; "bus error";
    "floating point exception"; "killed"; "user defined signal 1";
    "segmentation fault"; "user defined signal 2"; "broken pipe";
    "alarm clock"; "terminated"; "stack fault"; "child exited";
    "continued"; "stopped (signal)"; "stopped"; "stopped (tty input)";
    "stopped (tty output)"; "urgent I/O condition";
    "CPU time limit exceeded"; "file size limit exceeded";
    "virtual timer expired"; "profiling timer expired"; "window changed";
    "I/O possible"; "power failure"; "bad system call" ].

Definition itoa (n : Z) : string := NilZero.string_of_int (Z.to_int n).

(** [syscall.Signal.String]. *)
Definition Signal_String (s : Signal) : string :=
  if bool_decide (0 ≤ s < Z.of_nat (length signals)) then
    match signals !! Z.to_nat s with
    | Some str => if bool_decide (str = "") then "signal " +:+ itoa s else str
    | None => "signal " +:+ itoa s
    end
  else "signal " +:+ itoa s.

(** The name of each of the signals 1 to 31 of linux, written out signal
    by signal: what a log line of the caller is expected to show. *)
Abbreviation linux_signal_names :=
  [ (1, "hangup"); (2, "interrupt"); (3, "quit"); (4, "illegal instruction");
    (5, "trace/breakpoint trap"); (6, "aborted"); (7, "bus error");
    (8, "floating point exception"); (9, "killed");
    (10, "user defined signal 1"); (11, "segmentation fault");
    (12, "user defined signal 2"); (13, "broken pipe"); (14, "alarm clock");
    (15, "terminated"); (16, "stack fault"); (17, "child exited");
    (18, "continued"); (19, "stopped (signal)"); (20, "stopped");
    (21, "stopped (tty input)"); (22, "stopped (tty output)");
    (23, "urgent I/O condition"); (24, "CPU time limit exceeded");
    (25, "file size limit exceeded"); (26, "virtual timer expired");
    (27, "profiling timer expired"); (28, "window changed");
    (29, "I/O possible"); (30, "power failure"); (31, "bad system call") ]
  (only parsing).

(** [os/signal]: [numSig] and [signum]. *)
Definition numSig : Z := 65.

Definition signum (s : Signal) : Z :=
  if bool_decide (0 ≤ s < numSig) then s else -1.

(** SIGKILL and SIGSTOP cannot be caught: the kernel acts on the process
    itself and package [os/signal] never sees them. *)
Definition uncatchable (s : Signal) : bool :=
  bool_decide (s = SIGKILL) || bool_decide (s = SIGSTOP).

(** ** Channels *)

(** A channel made by [make(chan A, cap)]: its capacity and the queued
    values, oldest first. *)
Record chan (A : Type) : Type := Chan { ch_cap : nat; ch_buf : list A }.
Arguments Chan {A} _ _.
Arguments ch_cap {A} _.
Arguments ch_buf {A} _.

Definition make_chan {A} (cap : nat) : chan A := Chan cap [].

(** A send completes when the queue has room; otherwise the sender blocks
    ([None]).  No receiver is ever parked on the channels of this package
    while their queue is full, so direct hand-off is not modelled. *)
Definition chan_send {A} (ch : chan A) (v : A) : option (chan A) :=
  if bool_decide (length (ch_buf ch) < ch_cap ch)%nat
  then Some (Chan (ch_cap ch) (ch_buf ch ++ [v]))
  else None.

(** [select { case ch <- v: default: }]: send, or drop the value. *)
Definition chan_send_nb {A} (ch : chan A) (v : A) : chan A :=
  default ch (chan_send ch v).

(** A receive completes when a value is queued. *)
Definition chan_recv {A} (ch : chan A) : option (A * chan A) :=
  match ch_buf ch with
  | v :: rest => Some (v, Chan (ch_cap ch) rest)
  | [] => None
  end.

(** ** Contexts *)

(** A [context.Context] as the two methods used: [Done] (is the channel
    closed) and [Err].  Cancelling stores the reason and closes the channel
    in one atomic step; a second cancellation changes nothing. *)
Record Context : Type := Ctx { ctx_done : bool; ctx_err : goerror }.

Definition context_Background : Context := Ctx false None.

(** The reasons the interface allows [Err] to report. *)
Inductive reason : Type := Canceled | DeadlineExceeded.

Definition reason_err (r : reason) : error :=
  match r with
  | Canceled => context_Canceled
  | DeadlineExceeded => context_DeadlineExceeded
  end.

Definition cancel (r : reason) (ctx : Context) : Context :=
  if ctx_done ctx then ctx else Ctx true (Some (reason_err r)).

Definition ctx_Err (ctx : Context) : goerror := ctx_err ctx.

(** The contract of the interface: [Err] is non-nil exactly when [Done] is
    closed, and it is then one of the two context errors. *)
Definition ctx_ok (ctx : Context) : Prop :=
  if ctx_done ctx then ∃ r, ctx_err ctx = Some (reason_err r)
  else ctx_err ctx = None.

(** ** Timers *)

(** [time.Duration] and the runtime clock are [int64] nanoseconds. *)
Definition int64_wrap (z : Z) : Z := (z + 2 ^ 63) `mod` 2 ^ 64 - 2 ^ 63.

Definition maxInt64 : Z := 2 ^ 63 - 1.

(** [time.when(d)] at clock [now]: the instant a timer of duration [d]
    fires.  A duration that is zero or negative gives the present instant;
    an overflowing sum is clamped. *)
Definition when (now d : Z) : Z :=
  if bool_decide (d ≤ 0) then now
  else
    let t := int64_wrap (now + d) in
    if bool_decide (t < 0) then maxInt64 else t.

(** The channel of a timer is ready once the clock has reached its instant. *)
Definition timer_fired (tm now : Z) : bool := bool_decide (tm ≤ now).

(** ** Package os/signal *)

(** [handlers.m] maps each registered channel to the set of signal numbers
    it wants; the channels themselves live in a store keyed by the same
    identifiers. *)
Definition handler_set (h : gset Z) (n : Z) : gset Z :=
  if bool_decide (n < 0) then h else {[n]} ∪ h.

(** [signal.Notify(c, sig...)]: an empty list asks for every signal. *)
Definition signal_Notify (c : positive) (sig : list Signal)
    (m : gmap positive (gset Z)) : gmap positive (gset Z) :=
  let h := default ∅ (m !! c) in
  let wanted :=
    if bool_decide (length sig = 0%nat) then seqZ 0 numSig else signum <$> sig in
  <[c := foldl handler_set h wanted]> m.

(** [signal.Stop(c)]. *)
Definition signal_Stop (c : positive)
    (m : gmap positive (gset Z)) : gmap positive (gset Z) :=
  delete c m.

(** [h.want(n)] for the handler of channel [c], if it has one. *)
Definition want (m : gmap positive (gset Z)) (c : positive) (n : Z) : bool :=
  match m !! c with
  | Some h => bool_decide (n ∈ h)
  | None => false
  end.

(** [signal.process(sig)]: every registered channel that wants the signal
    gets a send that does not block. *)
Definition signal_process (s : Signal) (m : gmap positive (gset Z))
    (chans : gmap positive (chan Z)) : gmap positive (chan Z) :=
  let n := signum s in
  if bool_decide (n < 0) then chans
  else map_imap (λ c ch, Some (if want m c n then chan_send_nb ch s else ch)) chans.

(** ** The process around a call *)

(** What a call shares with the rest of the process: the context it was
    given, the signal table, the channel store, the next free heap address,
    and whether the process is still running. *)
Record world : Type := World {
  w_ctx : Context;
  w_handlers : gmap positive (gset Z);
  w_chans : gmap positive (chan Z);
  w_heap : positive;
  w_alive : bool
}.

(** The outside world cancels the context. *)
Definition world_cancel (r : reason) (w : world) : world :=
  World (cancel r (w_ctx w)) (w_handlers w) (w_chans w) (w_heap w) (w_alive w).

(** The kernel delivers a signal to the process.  A signal that cannot be
    caught never reaches [signal.process]: SIGKILL ends the process, SIGSTOP
    suspends it until it is continued, and the program sees nothing of the
    suspension.  Any other signal is handed to [signal.process].  What the
    runtime does with a signal no channel is registered for (its default
    disposition) lies outside the package and is left out. *)
Definition world_signal (s : Signal) (w : world) : world :=
  if uncatchable s
  then World (w_ctx w) (w_handlers w) (w_chans w) (w_heap w)
         (if bool_decide (s = SIGKILL) then false else w_alive w)
  else World (w_ctx w) (w_handlers w)
         (signal_process s (w_handlers w) (w_chans w)) (w_heap w) (w_alive w).

(** A process in which nothing is registered and no context is cancelled. *)
Definition boot : world := World context_Background ∅ ∅ first_heap_ptr true.

(** ** ListenForQuitSignal (util.go, lines 44-59) *)

Module Listen.

(** The two cases of the [select] at line 53. *)
Inductive branch : Type := CaseDone | CaseSig.

(** Program points, named after the line about to run.  [Ldefer] is the
    function after its [return] statement has set the result and before the
    deferred [signal.Stop(c)] has run; [Lret] is the call returned. *)
Inductive pc : Type :=
| L45 (sig : list Signal)
| L49 (sig : list Signal)
| L50 (c : positive) (sig : list Signal)
| L51 (c : positive)
| L53 (c : positive)
| Ldefer (c : positive) (ret : goerror)
| Lret (ret : goerror).

(** What the call did, in order (a history kept beside the state). *)
Inductive event : Type :=
| EvNotify (c : positive) (sig : list Signal)
| EvDone
| EvRecv (s : Signal)
| EvStop (c : positive).

Record state : Type := St {
  st_world : world;
  st_pc : pc;
  st_trace : list event
}.

(** The function is called with context [w_ctx w] and signals [sig]. *)
Definition call (w : world) (sig : list Signal) : state := St w (L45 sig) [].

(** One step of the body.  [pick] is the case the runtime tries at the
    [select]; a case that is not ready, like a returned call, has no step. *)
Definition ListenForQuitSignal (pick : branch) (st : state) : option state :=
  let w := st_world st in
  let tr := st_trace st in
  match st_pc st with
  | L45 sig =>
      (* if len(sig) == 0 { sig = append(sig, os.Interrupt, syscall.SIGTERM) } *)
      let sig' :=
        if bool_decide (length sig = 0%nat)
        then sig ++ [os_Interrupt; SIGTERM] else sig in
      Some (St w (L49 sig') tr)
  | L49 sig =>
      (* c := make(chan os.Signal, 1): a new channel, none of the existing *)
      let c := fresh (dom (w_chans w) ∪ dom (w_handlers w)) in
      Some (St (World (w_ctx w) (w_handlers w)
                  (<[c := make_chan 1]> (w_chans w)) (w_heap w) (w_alive w))
               (L50 c sig) tr)
  | L50 c sig =>
      (* signal.Notify(c, sig...) *)
      Some (St (World (w_ctx w) (signal_Notify c sig (w_handlers w))
                  (w_chans w) (w_heap w) (w_alive w))
               (L51 c) (tr ++ [EvNotify c sig]))
  | L51 c =>
      (* defer signal.Stop(c) *)
      Some (St w (L53 c) tr)
  | L53 c =>
      match pick with
      | CaseDone =>
          (* case <-ctx.Done(): return ctx.Err() *)
          if ctx_done (w_ctx w)
          then Some (St w (Ldefer c (ctx_Err (w_ctx w))) (tr ++ [EvDone]))
          else None
      | CaseSig =>
          (* case s := <-c: return fmt.Errorf("%s: %w", s, ErrReceivedQuitSignal) *)
          match w_chans w !! c ≫= chan_recv with
          | Some (s, ch) =>
              let err :=
                fmt_Errorf_s_w (w_heap w) (Signal_String s) ErrReceivedQuitSignal in
              Some (St (World (w_ctx w) (w_handlers w) (<[c := ch]> (w_chans w))
                          (Pos.succ (w_heap w)) (w_alive w))
                       (Ldefer c (Some err)) (tr ++ [EvRecv s]))
          | None => None
          end
      end
  | Ldefer c ret =>
      (* the deferred signal.Stop(c), then the return to the caller *)
      Some (St (World (w_ctx w) (signal_Stop c (w_handlers w))
                  (w_chans w) (w_heap w) (w_alive w))
               (Lret ret) (tr ++ [EvStop c]))
  | Lret _ => None
  end.

(** What can happen next: the context is cancelled, a signal reaches the
    process, or the goroutine running the call takes a step. *)
Inductive action : Type :=
| Cancel (r : reason)
| Deliver (s : Signal)
| Step (pick : branch).

(** Nothing happens in a process that was killed. *)
Definition act (a : action) (st : state) : option state :=
  if w_alive (st_world st) then
    match a with
    | Cancel r => Some (St (world_cancel r (st_world st)) (st_pc st) (st_trace st))
    | Deliver s => Some (St (world_signal s (st_world st)) (st_pc st) (st_trace st))
    | Step pick => ListenForQuitSignal pick st
    end
  else None.

(** A schedule is run action by action; it is not a run of the program when
    one of its actions is not possible. *)
Fixpoint run (sched : list action) (st : state) : option state :=
  match sched with
  | [] => Some st
  | a :: rest => act a st ≫= run rest
  end.

(** The signal list after line 47. *)
Definition effective (sig : list Signal) : list Signal :=
  if bool_decide (length sig = 0%nat) then [os_Interrupt; SIGTERM] else sig.

(** The set a fresh channel is registered for by [signal.Notify(c, sig...)]
    with a non-empty [sig]. *)
Definition mask (sig : list Signal) : gset Z :=
  foldl handler_set ∅ (signum <$> sig).

(** The buffered queue of channel [c], if the channel exists. *)
Definition queue (w : world) (c : positive) : option (list Z) :=
  ch_buf <$> w_chans w !! c.

(** The error the signal case returns for signal [s], allocated at [p]. *)
Definition quit_error (p : positive) (s : Signal) : error :=
  fmt_Errorf_s_w p (Signal_String s) ErrReceivedQuitSignal.

(** The default pair. *)
Definition default_pair : gset Z := {[os_Interrupt; SIGTERM]}.

(** Actions of the outside world, as opposed to steps of the call. *)
Definition is_env (a : action) : bool :=
  match a with Step _ => false | _ => true end.

(** Channel [c] is the subscription of the call: it was not registered
    before, it is now registered for exactly [mask sig], and its single-slot
    queue holds subscribed, catchable signals only. *)
Definition registered (w0 : world) (sig : list Signal) (w : world)
    (c : positive) : Prop :=
  w_handlers w0 !! c = None ∧
  w_handlers w = <[c := mask sig]> (w_handlers w0) ∧
  ∃ buf, w_chans w !! c = Some (Chan 1 buf) ∧ (length buf ≤ 1)%nat ∧
         ∀ s, s ∈ buf → s ∈ mask sig ∧ uncatchable s = false.

(** The result and the history of a call whose [select] has chosen. *)
Definition chosen (sig : list Signal) (w : world) (c : positive)
    (ret : goerror) (tr : list event) : Prop :=
  (ctx_done (w_ctx w) = true ∧ ret = ctx_Err (w_ctx w) ∧
   tr = [EvNotify c sig; EvDone]) ∨
  (∃ s p, s ∈ mask sig ∧ uncatchable s = false ∧
          ret = Some (quit_error p s) ∧ tr = [EvNotify c sig; EvRecv s]).

(** What holds at each program point of a call started in world [w0] with
    the signal list [sig0]. *)
Definition inv (w0 : world) (sig0 : list Signal) (st : state) : Prop :=
  let w := st_world st in
  match st_pc st with
  | L45 sig =>
      sig = sig0 ∧ w_handlers w = w_handlers w0 ∧ st_trace st = []
  | L49 sig =>
      sig = effective sig0 ∧ w_handlers w = w_handlers w0 ∧ st_trace st = []
  | L50 c sig =>
      sig = effective sig0 ∧ w_handlers w = w_handlers w0 ∧
      w_handlers w0 !! c = None ∧ w_chans w !! c = Some (Chan 1 []) ∧
      st_trace st = []
  | L51 c | L53 c =>
      registered w0 (effective sig0) w c ∧
      st_trace st = [EvNotify c (effective sig0)]
  | Ldefer c ret =>
      registered w0 (effective sig0) w c ∧
      chosen (effective sig0) w c ret (st_trace st)
  | Lret ret =>
      ∃ c tr, w_handlers w0 !! c = None ∧ w_handlers w = w_handlers w0 ∧
              chosen (effective sig0) w c ret tr ∧
              st_trace st = tr ++ [EvStop c]
  end.

(** A subscribed signal [s0] is kept for the call: until the [select] has
    chosen, it sits in the single slot of channel [c]; afterwards the call
    has received it, or has taken the case of a context that is done. *)
Definition pending (c : positive) (s0 : Signal) (st : state) : Prop :=
  match st_pc st with
  | L51 c' | L53 c' =>
      c' = c ∧ w_chans (st_world st) !! c = Some (Chan 1 [s0])
  | Ldefer _ ret | Lret ret =>
      (EvRecv s0 ∈ st_trace st ∧ ∃ p, ret = Some (quit_error p s0)) ∨
      (ctx_done (w_ctx (st_world st)) = true ∧
       ret = ctx_Err (w_ctx (st_world st)))
  | _ => False
  end.

(** The program points that come before the [select]. *)
Definition before_select (p : pc) : bool :=
  match p with
  | L45 _ | L49 _ | L50 _ _ | L51 _ => true
  | _ => false
  end.

(** Steps the call still has to take before it has returned. *)
Definition remaining (p : pc) : nat :=
  match p with
  | L45 _ => 6 | L49 _ => 5 | L50 _ _ => 4 | L51 _ => 3 | L53 _ => 2
  | Ldefer _ _ => 1 | Lret _ => 0
  end.

(** The select has not chosen yet. *)
Definition undecided (p : pc) : bool :=
  match p with
  | Ldefer _ _ | Lret _ => false
  | _ => true
  end.

End Listen.

(** ** WaitWithTimeout (util.go, lines 102-115) *)

Module Wait.

(** The two cases of the [select] at line 109. *)
Inductive branch : Type := CaseRec | CaseTimer.

(** Program points of the calling goroutine.  [W109] evaluates the channel
    operands of the [select], which creates the timer; [W109s tm] is the
    [select] itself, with the timer due at [tm]. *)
Inductive pc : Type :=
| W103
| W105
| W107
| W109
| W109s (tm : Z)
| Wret (ret : goerror).

(** Program points of a goroutine started at line 107, whose body is
    [rec <- wait()]: about to call [wait], inside [wait], holding the
    result [r] and about to send it, and finished. *)
Inductive gpc : Type :=
| Gcall
| Gwait
| Gsend (r : goerror)
| Gexit.

(** What happened, in order (a history kept beside the state). *)
Inductive event : Type :=
| EvSpawn
| EvInvoke
| EvReturn (r : goerror)
| EvDeliver (r : goerror)
| EvRecv (r : goerror)
| EvTimeout.

Record state : Type := St {
  st_ctx : Context;
  st_now : Z;
  st_rec : option (chan goerror);
  st_gos : list gpc;
  st_pc : pc;
  st_trace : list event
}.

(** The function is called with context [ctx] while the clock shows [now]. *)
Definition call (ctx : Context) (now : Z) : state :=
  St ctx now None [] W103 [].

(** One step of the calling goroutine; [timeout] is the argument of the
    call and [pick] the case the runtime tries at the [select]. *)
Definition WaitWithTimeout (timeout : Z) (pick : branch) (st : state)
    : option state :=
  let '(St ctx now rec gos _ tr) := st in
  match st_pc st with
  | W103 =>
      (* <-ctx.Done() *)
      if ctx_done ctx then Some (St ctx now rec gos W105 tr) else None
  | W105 =>
      (* rec := make(chan error, 1) *)
      Some (St ctx now (Some (make_chan 1)) gos W107 tr)
  | W107 =>
      (* go func() { rec <- wait() }() *)
      Some (St ctx now rec (gos ++ [Gcall]) W109 (tr ++ [EvSpawn]))
  | W109 =>
      (* select: the operand time.After(timeout) starts the timer *)
      Some (St ctx now rec gos (W109s (when now timeout)) tr)
  | W109s tm =>
      match pick with
      | CaseRec =>
          (* case err := <-rec: return err *)
          match rec ≫= chan_recv with
          | Some (err, ch) =>
              Some (St ctx now (Some ch) gos (Wret err) (tr ++ [EvRecv err]))
          | None => None
          end
      | CaseTimer =>
          (* case <-time.After(timeout): return ErrWaitDeadlineExceeded *)
          if timer_fired tm now
          then Some (St ctx now rec gos (Wret (Some ErrWaitDeadlineExceeded))
                       (tr ++ [EvTimeout]))
          else None
      end
  | Wret _ => None
  end.

(** One step of goroutine [i]: it calls [wait], or sends the result it
    holds on [rec] (and blocks while [rec] has no room).  Inside [wait] only
    [wait] itself moves it on. *)
Definition goroutine (i : nat) (st : state) : option state :=
  let '(St ctx now rec gos p tr) := st in
  match gos !! i with
  | Some Gcall => Some (St ctx now rec (<[i := Gwait]> gos) p (tr ++ [EvInvoke]))
  | Some (Gsend r) =>
      ch ← rec ≫= (λ ch, chan_send ch r);
      Some (St ctx now (Some ch) (<[i := Gexit]> gos) p (tr ++ [EvDeliver r]))
  | _ => None
  end.

(** The [wait] call running in goroutine [i] returns [r]. *)
Definition wait_returns (i : nat) (r : goerror) (st : state) : option state :=
  let '(St ctx now rec gos p tr) := st in
  match gos !! i with
  | Some Gwait => Some (St ctx now rec (<[i := Gsend r]> gos) p (tr ++ [EvReturn r]))
  | _ => None
  end.

(** What can happen next: the context is cancelled, the clock advances,
    the caller or a goroutine takes a step, or a running [wait] returns. *)
Inductive action : Type :=
| Cancel (r : reason)
| Tick (d : Z)
| Main (pick : branch)
| Go (i : nat)
| WaitReturns (i : nat) (r : goerror).

Definition act (timeout : Z) (a : action) (st : state) : option state :=
  match a with
  | Cancel r =>
      Some (St (cancel r (st_ctx st)) (st_now st) (st_rec st) (st_gos st)
              (st_pc st) (st_trace st))
  | Tick d =>
      if bool_decide (0 ≤ d)
      then Some (St (st_ctx st) (st_now st + d) (st_rec st) (st_gos st)
                   (st_pc st) (st_trace st))
      else None
  | Main pick => WaitWithTimeout timeout pick st
  | Go i => goroutine i st
  | WaitReturns i r => wait_returns i r st
  end.

Fixpoint run (timeout : Z) (sched : list action) (st : state) : option state :=
  match sched with
  | [] => Some st
  | a :: rest => act timeout a st ≫= run timeout rest
  end.

(** How often [wait] was invoked, and what its invocations returned. *)
Definition invocations (tr : list event) : nat :=
  length (List.filter (λ e, match e with EvInvoke => true | _ => false end) tr).

Definition spawns (tr : list event) : nat :=
  length (List.filter (λ e, match e with EvSpawn => true | _ => false end) tr).

Definition returned (tr : list event) : list goerror :=
  List.flat_map (λ e, match e with EvReturn r => [r] | _ => [] end) tr.

(** Steps the caller still has to take before it has returned. *)
Definition remaining (p : pc) : nat :=
  match p with
  | W103 => 5 | W105 => 4 | W107 => 3 | W109 => 2 | W109s _ => 1 | Wret _ => 0
  end.

(** The part of a history written by the goroutine, and the part written by
    the caller. *)
Definition is_go_event (e : event) : bool :=
  match e with
  | EvInvoke | EvReturn _ | EvDeliver _ => true
  | _ => false
  end.

Definition glog (tr : list event) : list event := List.filter is_go_event tr.

Definition mlog (tr : list event) : list event :=
  List.filter (λ e, negb (is_go_event e)) tr.

(** Where the goroutine is, what it has done so far, and what [rec] holds
    as long as the caller has not received from it. *)
Definition goroutine_at (g : gpc) (log : list event) (buf : list goerror)
    : Prop :=
  match g with
  | Gcall => log = [] ∧ buf = []
  | Gwait => log = [EvInvoke] ∧ buf = []
  | Gsend r => log = [EvInvoke; EvReturn r] ∧ buf = []
  | Gexit => ∃ r, log = [EvInvoke; EvReturn r; EvDeliver r] ∧ buf = [r]
  end.

(** One goroutine runs beside the caller and [rec] has a single slot; the
    history starts with the [go] statement, and the caller's own part of
    what follows is [m]. *)
Definition racing (gos : list gpc) (rec : option (chan goerror))
    (tr : list event) (m : list event) : Prop :=
  ∃ g buf tr', gos = [g] ∧ rec = Some (Chan 1 buf) ∧ tr = EvSpawn :: tr' ∧
               goroutine_at g (glog tr') buf ∧ mlog tr' = m.

(** What holds at each program point of the caller. *)
Definition inv (timeout : Z) (st : state) : Prop :=
  match st_pc st with
  | W103 => st_rec st = None ∧ st_gos st = [] ∧ st_trace st = []
  | W105 =>
      ctx_done (st_ctx st) = true ∧
      st_rec st = None ∧ st_gos st = [] ∧ st_trace st = []
  | W107 =>
      ctx_done (st_ctx st) = true ∧
      st_rec st = Some (Chan 1 []) ∧ st_gos st = [] ∧ st_trace st = []
  | W109 =>
      ctx_done (st_ctx st) = true ∧
      racing (st_gos st) (st_rec st) (st_trace st) []
  | W109s tm =>
      ctx_done (st_ctx st) = true ∧ (timeout ≤ 0 → tm ≤ st_now st) ∧
      racing (st_gos st) (st_rec st) (st_trace st) []
  | Wret ret =>
      ctx_done (st_ctx st) = true ∧
      ((ret = Some ErrWaitDeadlineExceeded ∧
        racing (st_gos st) (st_rec st) (st_trace st) [EvTimeout]) ∨
       (st_gos st = [Gexit] ∧ st_rec st = Some (Chan 1 []) ∧
        st_trace st =
          [EvSpawn; EvInvoke; EvReturn ret; EvDeliver ret; EvRecv ret]))
  end.

(** The caller is past the [go] statement of line 107. *)
Definition launched (p : pc) : bool :=
  match p with
  | W109 | W109s _ | Wret _ => true
  | _ => false
  end.

(** The same action with another reason of cancellation. *)
Definition recancel (f : reason → reason) (a : action) : action :=
  match a with
  | Cancel r => Cancel (f r)
  | _ => a
  end.

(** The same state around another context. *)
Definition with_ctx (ctx : Context) (st : state) : state :=
  St ctx (st_now st) (st_rec st) (st_gos st) (st_pc st) (st_trace st).

(** What the timer of a call guarantees, seen from a moment [t1] at which
    the caller had not yet started it: the clock has not gone back, no
    timeout was reported before the [select], a timer that exists was
    started at [t1] or later, and a reported timeout has waited out the
    full duration (as long as the clock stays in range). *)
Definition on_time (timeout t1 : Z) (st : state) : Prop :=
  t1 ≤ st_now st ∧
  match st_pc st with
  | W109s tm =>
      (EvTimeout ∉ st_trace st) ∧
      ∃ t0, t1 ≤ t0 ∧ t0 ≤ st_now st ∧ tm = when t0 timeout
  | Wret _ =>
      EvTimeout ∈ st_trace st → st_now st < maxInt64 →
      t1 + timeout ≤ st_now st
  | _ => EvTimeout ∉ st_trace st
  end.

End Wait.

(** ** The helper expectError of Test_WaitWithTimeout *)





(** * Facts about the runtime model *)

Lemma error_eqb_refl e : comparable e = true → error_eqb e e = true.
Proof.
  destruct e as [p s|p msg e|[]|[] p msg]; simpl; try done; intros _;
    by apply bool_decide_eq_true.
Qed.


(** For an error of a type that is not comparable (and has no [Is]
    method) it does not. *)
Lemma errors_Is_not_comparable p msg :
  errors_Is (Some (customError false p msg))
            (Some (customError false p msg)) = false.
Proof. done. Qed.

(** A match found under a layer is found through the layer. *)
Lemma errors_is_wrapError p msg e t c :
  errors_is e t c = true → errors_is (wrapError p msg e) t c = true.
Proof. intros H. simpl. rewrite H. apply orb_true_r. Qed.

Lemma errors_is_wrap_layers layers e t c :
  errors_is e t c = true → errors_is (wrap_layers layers e) t c = true.
Proof.
  intros H. induction layers as [|[p msg] layers IH]; simpl; [done|].
  rewrite IH. apply orb_true_r.
Qed.

Lemma errors_is_reason r c :
  errors_is (reason_err r) ErrReceivedQuitSignal c = false.
Proof. destruct r, c; done. Qed.

(** The names [syscall.Signal.String] prints: the name of the table for the
    signals 1 to 31, and the number after the word "signal" for the rest. *)
Lemma Signal_String_named s name :
  (s, name) ∈ linux_signal_names → Signal_String s = name.
Proof.
  intros H.
  repeat (apply elem_of_cons in H as [[= -> ->]|H]; [reflexivity|]).
  by apply elem_of_nil in H.
Qed.

Lemma Signal_String_unnamed s :
  s = 0 ∨ 32 ≤ s < numSig → Signal_String s = "signal " +:+ pretty s.
Proof.
  intros [-> |H]; [reflexivity|].
  assert (s ∈ seqZ 32 33) as Hin by (apply elem_of_seqZ; unfold numSig in H; lia).
  vm_compute in Hin.
  repeat (apply elem_of_cons in Hin as [-> |Hin]; [reflexivity|]).
  by apply elem_of_nil in Hin.
Qed.

Lemma cancel_done r ctx : ctx_done ctx = true → cancel r ctx = ctx.
Proof. unfold cancel. by intros ->. Qed.

Lemma cancel_ctx_done r ctx : ctx_done (cancel r ctx) = true.
Proof. unfold cancel. by destruct (ctx_done ctx) eqn:E. Qed.

Lemma cancel_ok r ctx : ctx_ok ctx → ctx_ok (cancel r ctx).
Proof.
  intros H. unfold cancel. destruct (ctx_done ctx) eqn:E; [done|].
  by exists r.
Qed.

Lemma ctx_ok_Err ctx :
  ctx_ok ctx → ctx_done ctx = true → ∃ r, ctx_Err ctx = Some (reason_err r).
Proof. unfold ctx_ok, ctx_Err. intros H E. by rewrite E in H. Qed.

(** The set built by the loop of [signal.Notify]. *)
Lemma elem_of_foldl_handler_set (l : list Z) (h : gset Z) (n : Z) :
  n ∈ foldl handler_set h l ↔ n ∈ h ∨ (n ∈ l ∧ 0 ≤ n).
Proof.
  revert h. induction l as [|x l IH]; intros h; simpl.
  - set_solver.
  - rewrite IH. unfold handler_set. case_bool_decide; set_solver by lia.
Qed.

Lemma elem_of_mask sig n :
  n ∈ Listen.mask sig ↔ ∃ s, s ∈ sig ∧ signum s = n ∧ 0 ≤ n.
Proof.
  unfold Listen.mask. rewrite elem_of_foldl_handler_set, list_elem_of_fmap.
  split.
  - intros [H|[(s & -> & Hs) Hn]]; [set_solver|]. by exists s.
  - intros (s & Hs & <- & Hn). right. split; [by exists s|done].
Qed.

Lemma signum_id n : 0 ≤ n → signum n ≠ -1 → signum n = n.
Proof. unfold signum. case_bool_decide; lia. Qed.

Lemma elem_of_mask_signum sig n : n ∈ Listen.mask sig → signum n = n.
Proof.
  rewrite elem_of_mask. intros (s & _ & Hs & Hn).
  unfold signum in *. repeat case_bool_decide; lia.
Qed.

(** The set a channel is registered for, said without the loop: the
    listed signals whose number is in range. *)
Lemma elem_of_mask_range sig n :
  n ∈ Listen.mask sig ↔ n ∈ sig ∧ 0 ≤ n < numSig.
Proof.
  rewrite elem_of_mask. unfold signum. split.
  - intros (s & Hs & Hn & H0). case_bool_decide; [|lia]. by subst.
  - intros [Hn Hr]. exists n. rewrite bool_decide_eq_true_2 by done.
    split_and!; [done..|lia].
Qed.

Lemma mask_default_pair :
  Listen.mask (Listen.effective []) = Listen.default_pair.
Proof.
  apply set_eq. intros n. rewrite elem_of_mask. unfold Listen.default_pair.
  simpl. split.
  - intros (s & Hs & <- & Hn).
    assert (s = os_Interrupt ∨ s = SIGTERM) as [-> | ->] by set_solver;
      vm_compute; set_solver.
  - intros Hn.
    assert (n = os_Interrupt ∨ n = SIGTERM) as [-> | ->] by set_solver.
    + exists os_Interrupt. split; [set_solver|done].
    + exists SIGTERM. split; [set_solver|done].
Qed.

Lemma effective_nonempty sig : length (Listen.effective sig) ≠ 0%nat.
Proof. unfold Listen.effective. case_bool_decide; simpl; lia. Qed.

Lemma effective_line46 sig :
  (if bool_decide (length sig = 0%nat)
   then sig ++ [os_Interrupt; SIGTERM] else sig) = Listen.effective sig.
Proof.
  unfold Listen.effective. case_bool_decide as H; [|done].
  by destruct sig.
Qed.

(** Registering a new channel for a non-empty list. *)
Lemma signal_Notify_fresh c sig m :
  m !! c = None → length sig ≠ 0%nat →
  signal_Notify c sig m = <[c := Listen.mask sig]> m.
Proof.
  intros Hc Hsig. unfold signal_Notify, Listen.mask. rewrite Hc. simpl.
  by rewrite bool_decide_eq_false_2.
Qed.

(** What [signal.process] does to one channel. *)
Lemma signal_process_lookup s m chans c :
  signal_process s m chans !! c =
  (λ ch, if bool_decide (signum s < 0) then ch
         else if want m c (signum s) then chan_send_nb ch s else ch)
    <$> chans !! c.
Proof.
  unfold signal_process. case_bool_decide.
  - by destruct (chans !! c).
  - rewrite map_lookup_imap. by destruct (chans !! c).
Qed.

Lemma signal_process_unwanted s m chans c :
  want m c (signum s) = false → signal_process s m chans !! c = chans !! c.
Proof.
  intros H. rewrite signal_process_lookup, H.
  destruct (chans !! c); simpl; [|done]. by case_bool_decide.
Qed.

(** Without a buffer (and with no receiver waiting) a send blocks, and the
    send of [signal.process], which does not block, drops its value: the
    single slot of the two channels of this package is what keeps a value
    that arrives before anybody receives. *)
Lemma chan_send_unbuffered {A} (v : A) : chan_send (make_chan 0) v = None.
Proof. done. Qed.

Lemma chan_send_nb_unbuffered {A} (v : A) :
  chan_send_nb (make_chan 0) v = make_chan 0.
Proof. done. Qed.

Lemma chan_send_nb_free {A} (v : A) : chan_send_nb (Chan 1 []) v = Chan 1 [v].
Proof. done. Qed.

Lemma chan_send_nb_full {A} (v x : A) : chan_send_nb (Chan 1 [x]) v = Chan 1 [x].
Proof. done. Qed.

(** * ListenForQuitSignal: invariants *)

Module ListenProofs.
Import Listen.

Lemma listen_run_app a b st : run (a ++ b) st = run a st ≫= run b.
Proof.
  revert st. induction a as [|x a IH]; intros st; simpl; [done|].
  destruct (act x st) as [st1|]; simpl; [apply IH|done].
Qed.

Lemma listen_run_snoc sched a st : run (sched ++ [a]) st = run sched st ≫= act a.
Proof.
  rewrite listen_run_app. destruct (run sched st) as [st1|]; simpl; [|done].
  by destruct (act a st1).
Qed.

(** The outside world never touches the signal table, the program point or
    the history of the call. *)
Lemma act_env a st st' :
  is_env a = true → act a st = Some st' →
  w_handlers (st_world st') = w_handlers (st_world st) ∧
  st_pc st' = st_pc st ∧ st_trace st' = st_trace st.
Proof.
  unfold act. destruct (w_alive (st_world st)); [|done].
  destruct a as [r|s|pick]; simpl; [| |done]; intros _ [= <-]; simpl; [done|].
  unfold world_signal. by destruct (uncatchable s).
Qed.

Lemma world_signal_handlers s w :
  w_handlers (world_signal s w) = w_handlers w.
Proof. unfold world_signal. by destruct (uncatchable s). Qed.

Lemma world_signal_ctx s w : w_ctx (world_signal s w) = w_ctx w.
Proof. unfold world_signal. by destruct (uncatchable s). Qed.


(** A channel that does not want the signal keeps its queue. *)
Lemma world_signal_unwanted s w c :
  want (w_handlers w) c (signum s) = false →
  w_chans (world_signal s w) !! c = w_chans w !! c.
Proof.
  intros H. unfold world_signal. destruct (uncatchable s); simpl; [done|].
  by apply signal_process_unwanted.
Qed.

Lemma registered_cancel w0 sig w c r :
  registered w0 sig w c → registered w0 sig (world_cancel r w) c.
Proof. done. Qed.

Lemma chosen_cancel sig w c ret tr r :
  chosen sig w c ret tr → chosen sig (world_cancel r w) c ret tr.
Proof.
  intros [(Hd & -> & ->)|H]; [left|by right]. simpl.
  by rewrite cancel_done.
Qed.

(** A registered channel takes a delivered signal it wants if its slot is
    free, and is left alone otherwise. *)
Lemma registered_signal w0 sig w c s :
  registered w0 sig w c → registered w0 sig (world_signal s w) c.
Proof.
  intros (Hc & Hh & buf & Hch & Hlen & Hbuf). unfold world_signal, registered.
  destruct (uncatchable s) eqn:Hs; simpl.
  { do 2 (split; [done|]). eauto. }
  do 2 (split; [done|]).
  rewrite signal_process_lookup, Hch. simpl.
  case_bool_decide as Hn; [eauto|].
  unfold want. rewrite Hh, lookup_insert_eq.
  case_bool_decide as Hm; [|eauto].
  destruct buf as [|x [|y buf]]; simpl in Hlen; [| |lia].
  - exists [s]. split_and!; [done|simpl; lia|].
    intros s' ->%list_elem_of_singleton.
    assert (signum s = s) as E.
    { unfold signum in *. repeat case_bool_decide; lia. }
    by rewrite E in Hm.
  - exists [x]. eauto.
Qed.

Lemma chosen_signal sig w c ret tr s :
  chosen sig w c ret tr → chosen sig (world_signal s w) c ret tr.
Proof. unfold world_signal. by destruct (uncatchable s). Qed.

Lemma listen_inv_act w0 sig0 a st st' :
  inv w0 sig0 st → act a st = Some st' → inv w0 sig0 st'.
Proof.
  unfold act. destruct (w_alive (st_world st)); [|done].
  destruct st as [w p tr]. destruct a as [r|s|pick]; simpl.
  - (* the context is cancelled *)
    intros H [= <-]. unfold inv in *; simpl in *.
    destruct p; try done.
    + destruct H. split; [by apply registered_cancel|by apply chosen_cancel].
    + destruct H as (c & tr' & ? & ? & ? & ?). exists c, tr'.
      split_and!; [done..|by apply chosen_cancel|done].
  - (* a signal is delivered *)
    intros H [= <-]. unfold inv in *; simpl in *.
    rewrite world_signal_handlers.
    destruct p as [sig|sig|c sig|c|c|c ret|ret]; try done.
    + destruct H as (? & Hh & Hc & Hch & ?). split_and!; try done.
      rewrite world_signal_unwanted; [done|].
      unfold want. by rewrite Hh, Hc.
    + destruct H. split; [by apply registered_signal|done].
    + destruct H. split; [by apply registered_signal|done].
    + destruct H. split; [by apply registered_signal|by apply chosen_signal].
    + destruct H as (c & tr' & ? & ? & ? & ?). exists c, tr'.
      split_and!; [done..|by apply chosen_signal|done].
  - (* the call takes a step *)
    unfold ListenForQuitSignal, inv; simpl.
    destruct p as [sig|sig|c sig|c|c|c ret|ret]; simpl.
    + intros (-> & ? & ?) [= <-]; simpl. by rewrite effective_line46.
    + intros (-> & Hh & ?) [= <-]; simpl. split_and!; try done.
      * apply not_elem_of_dom. rewrite <-Hh.
        pose proof (is_fresh (dom (w_chans w) ∪ dom (w_handlers w))).
        set_solver.
      * by rewrite lookup_insert_eq.
    + intros (-> & Hh & Hc & Hch & ->) [= <-]; simpl. split; [|done].
      unfold registered; simpl. split_and!; [done| |].
      * rewrite Hh. apply signal_Notify_fresh; [done|apply effective_nonempty].
      * exists []. split_and!; [done|simpl; lia|]. by intros s ?%elem_of_nil.
    + by intros ? [= <-].
    + intros [Hreg ->]. destruct pick.
      * destruct (ctx_done (w_ctx w)) eqn:Hd; [|done].
        intros [= <-]; simpl. split; [done|]. by left.
      * destruct Hreg as (Hc & Hh & buf & Hch & Hlen & Hbuf).
        rewrite Hch. simpl. unfold chan_recv. simpl.
        destruct buf as [|s [|y buf]]; simpl in Hlen; [done| |lia].
        intros [= <-]; simpl. destruct (Hbuf s) as [Hs Hu]; [set_solver|].
        split.
        -- unfold registered; simpl. do 2 (split; [done|]).
           exists []. rewrite lookup_insert_eq.
           split_and!; [done|simpl; lia|]. by intros ? ?%elem_of_nil.
        -- right. by exists s, (w_heap w).
    + intros [Hreg Hch] [= <-]; simpl.
      destruct Hreg as (Hc & Hh & _). exists c, tr. split_and!; try done.
      unfold signal_Stop. rewrite Hh. by apply delete_insert_id.
    + done.
Qed.

Lemma inv_call w0 sig0 : inv w0 sig0 (call w0 sig0).
Proof. done. Qed.

(** Every state a schedule reaches satisfies the invariant. *)
Lemma listen_inv_run w0 sig0 sched st :
  run sched (call w0 sig0) = Some st → inv w0 sig0 st.
Proof.
  revert st. induction sched as [|a sched IH] using rev_ind; intros st.
  - intros [= <-]. apply inv_call.
  - rewrite listen_run_snoc. destruct (run sched (call w0 sig0)) as [st1|]; [|done].
    simpl. intros H. eapply listen_inv_act; [by apply IH|done].
Qed.

Lemma ctx_ok_act a st st' :
  ctx_ok (w_ctx (st_world st)) → act a st = Some st' →
  ctx_ok (w_ctx (st_world st')).
Proof.
  unfold act. destruct (w_alive (st_world st)); [|done].
  destruct a as [r|s|pick]; simpl.
  - intros H [= <-]. by apply cancel_ok.
  - intros H [= <-]. simpl. by rewrite world_signal_ctx.
  - unfold ListenForQuitSignal. destruct st as [w p tr]; simpl.
    destruct p as [sig|sig|c sig|c|c|c ret|ret]; simpl;
      try (by intros H [= <-]).
    destruct pick.
    + destruct (ctx_done (w_ctx w)); by intros H [= <-].
    + destruct (w_chans w !! c ≫= chan_recv) as [[s ch]|]; by intros H [= <-].
Qed.

Lemma ctx_ok_run sched st st' :
  ctx_ok (w_ctx (st_world st)) → run sched st = Some st' →
  ctx_ok (w_ctx (st_world st')).
Proof.
  revert st. induction sched as [|a sched IH]; intros st Hok; simpl.
  - by intros [= <-].
  - destruct (act a st) as [st1|] eqn:Ha; [|done]. simpl.
    apply IH. by eapply ctx_ok_act.
Qed.

(** A returned call registered one channel, chose one case of the
    [select], and stopped the channel. *)
Lemma returned_chosen w0 sig sched st ret :
  run sched (call w0 sig) = Some st → st_pc st = Lret ret →
  ∃ c tr, w_handlers w0 !! c = None ∧
          w_handlers (st_world st) = w_handlers w0 ∧
          chosen (effective sig) (st_world st) c ret tr ∧
          st_trace st = tr ++ [EvStop c].
Proof.
  intros Hrun Hpc. apply listen_inv_run in Hrun. unfold inv in Hrun.
  by rewrite Hpc in Hrun.
Qed.

Lemma quit_error_Is p s layers :
  errors_Is (Some (wrap_layers layers (quit_error p s)))
            (Some ErrReceivedQuitSignal) = true.
Proof. simpl. apply errors_is_wrap_layers. done. Qed.

(** The cases of Test_ListenForQuitSignal, as runs of the machine. *)

Example test_parent_context_cancelled :
  st_pc <$> run [Step CaseDone; Step CaseDone; Step CaseDone; Step CaseDone;
                 Cancel Canceled; Step CaseDone; Step CaseDone] (call boot [])
  = Some (Lret (Some context_Canceled)).
Proof. reflexivity. Qed.

Example test_os_Interrupt :
  (λ st, match st_pc st with Lret (Some e) => Error e | _ => "" end)
    <$> run [Step CaseSig; Step CaseSig; Step CaseSig; Step CaseSig;
             Deliver os_Interrupt; Step CaseSig; Step CaseSig] (call boot [])
  = Some "interrupt: received quit signal".
Proof. reflexivity. Qed.

Example test_syscall_SIGTERM :
  (λ st, match st_pc st with Lret (Some e) => Error e | _ => "" end)
    <$> run [Step CaseSig; Step CaseSig; Step CaseSig; Step CaseSig;
             Deliver SIGTERM; Step CaseSig; Step CaseSig] (call boot [])
  = Some "terminated: received quit signal".
Proof. reflexivity. Qed.

Example test_syscall_SIGQUIT :
  (λ st, match st_pc st with Lret (Some e) => Error e | _ => "" end)
    <$> run [Step CaseSig; Step CaseSig; Step CaseSig; Step CaseSig;
             Deliver SIGQUIT; Step CaseSig; Step CaseSig] (call boot [SIGQUIT])
  = Some "quit: received quit signal".
Proof. reflexivity. Qed.

(** SIGQUIT is not in the default pair: the call does not see it and stays
    in its [select], with neither case ready. *)
Example test_syscall_SIGQUIT_unexpected :
  ∃ st, run [Step CaseSig; Step CaseSig; Step CaseSig; Step CaseSig;
             Deliver SIGQUIT] (call boot []) = Some st ∧
        st_pc st = L53 1 ∧ queue (st_world st) 1 = Some [] ∧
        act (Step CaseSig) st = None ∧ act (Step CaseDone) st = None.
Proof. eexists. split; [vm_compute; reflexivity|]. by vm_compute. Qed.

(** SIGKILL ends the process, whether asked for or not. *)
Example test_syscall_SIGKILL :
  ∃ st, run [Step CaseSig; Step CaseSig; Step CaseSig; Step CaseSig;
             Deliver SIGKILL] (call boot [SIGKILL]) = Some st ∧
        w_alive (st_world st) = false ∧ queue (st_world st) 1 = Some [] ∧
        ∀ a, act a st = None.
Proof.
  eexists. split; [vm_compute; reflexivity|]. split; [done|].
  split; [by vm_compute|]. by intros [].
Qed.

(** A signal that arrives after [signal.Notify] and before the [select]
    waits in the slot and is what the call returns. *)
Example signal_before_select :
  (λ st, match st_pc st with Lret (Some e) => Error e | _ => "" end)
    <$> run [Step CaseSig; Step CaseSig; Step CaseSig; Deliver SIGTERM;
             Step CaseSig; Step CaseSig; Step CaseSig] (call boot [])
  = Some "terminated: received quit signal".
Proof. reflexivity. Qed.

(** With a signal queued and the context done, both cases of the [select]
    are ready and the call returns whichever the runtime picks. *)
Example signal_and_cancel_race :
  ∃ st,
    run [Step CaseSig; Step CaseSig; Step CaseSig; Step CaseSig;
         Deliver SIGINT; Cancel Canceled] (call boot []) = Some st ∧
    (st_pc <$> act (Step CaseDone) st
       = Some (Ldefer 1 (Some context_Canceled))) ∧
    (st_pc <$> act (Step CaseSig) st
       = Some (Ldefer 1 (Some (quit_error 4 SIGINT)))).
Proof. eexists. split; [vm_compute; reflexivity|]. by vm_compute. Qed.

(** The slot is single: of two signals in a row the first is kept. *)
Example two_signals_one_slot :
  (λ st, queue (st_world st) 1)
    <$> run [Step CaseSig; Step CaseSig; Step CaseSig; Step CaseSig;
             Deliver SIGINT; Deliver SIGTERM] (call boot [])
  = Some (Some [SIGINT]).
Proof. reflexivity. Qed.

(** * ListenForQuitSignal: the claims *)

(** C1: when the call returns after receiving a signal [s], that signal is
    one of the subscribed ones (listed, after the defaults were filled in,
    and with its number in range), and the result is a non-nil error whose
    message is the name of [s] followed by ": received quit signal" (the
    name of the linux table for the signals 1 to 31, "signal" and the number
    otherwise), which wraps [ErrReceivedQuitSignal], which [errors.Is]
    matches against that sentinel, and which still matches under any
    further [%w] layers. *)
Theorem C1_signal_received_quit_error w0 sig sched st ret s :
  run sched (call w0 sig) = Some st →
  st_pc st = Lret ret →
  EvRecv s ∈ st_trace st →
  (s ∈ effective sig ∧ 0 ≤ s < numSig) ∧
  ∃ e, ret = Some e ∧
       Error e = Signal_String s +:+ ": received quit signal" ∧
       (∀ name, (s, name) ∈ linux_signal_names →
                Error e = name +:+ ": received quit signal") ∧
       (s = 0 ∨ 32 ≤ s →
        Error e = "signal " +:+ pretty s +:+ ": received quit signal") ∧
       Unwrap e = Some ErrReceivedQuitSignal ∧
       errors_Is ret (Some ErrReceivedQuitSignal) = true ∧
       ∀ layers,
         errors_Is (Some (wrap_layers layers e))
                   (Some ErrReceivedQuitSignal) = true.
Proof.
  intros Hrun Hpc Hs.
  destruct (returned_chosen _ _ _ _ _ Hrun Hpc) as (c & tr & _ & _ & Hch & Htr).
  rewrite Htr in Hs.
  destruct Hch as [(_ & _ & ->)|(s' & p & Hm & _ & -> & ->)].
  - set_solver.
  - assert (s = s') as <- by set_solver.
    apply elem_of_mask_range in Hm. split; [done|].
    exists (quit_error p s). split_and!; try done.
    + intros name Hn. simpl. by rewrite (Signal_String_named _ _ Hn).
    + intros Hr. simpl. rewrite Signal_String_unnamed; [done|lia].
    + intros layers. apply quit_error_Is.
Qed.

Lemma C1_signal_received_quit_error_witness :
  ∃ st ret,
    run [Step CaseSig; Step CaseSig; Step CaseSig; Step CaseSig;
         Deliver 28; Step CaseSig; Step CaseSig] (call boot [28; 40])
      = Some st ∧
    st_pc st = Lret ret ∧
    EvRecv 28 ∈ st_trace st ∧
    ret = Some (wrapError 4 "window changed: received quit signal"
                  ErrReceivedQuitSignal) ∧
    (28 ∈ effective [28; 40] ∧ 0 ≤ 28 < numSig) ∧
    ∃ e, ret = Some e ∧
         Error e = Signal_String 28 +:+ ": received quit signal" ∧
         (∀ name, (28, name) ∈ linux_signal_names →
                  Error e = name +:+ ": received quit signal") ∧
         (28 = 0 ∨ 32 ≤ 28 →
          Error e = "signal " +:+ pretty 28 +:+ ": received quit signal") ∧
         Unwrap e = Some ErrReceivedQuitSignal ∧
         errors_Is ret (Some ErrReceivedQuitSignal) = true ∧
         ∀ layers,
           errors_Is (Some (wrap_layers layers e))
                     (Some ErrReceivedQuitSignal) = true.
Proof.
  eexists _, _. split; [vm_compute; reflexivity|].
  split; [reflexivity|].
  assert (EvRecv 28 ∈ [EvNotify 1 [28; 40]; EvRecv 28; EvStop 1])
    as Hin by (right; left).
  split; [exact Hin|]. split; [reflexivity|].
  eapply (C1_signal_received_quit_error boot [28; 40]
            [Step CaseSig; Step CaseSig; Step CaseSig; Step CaseSig;
             Deliver 28; Step CaseSig; Step CaseSig]).
  - vm_compute. reflexivity.
  - reflexivity.
  - exact Hin.
Defined.

(** The same for a signal the table has no name for. *)
Example test_unnamed_signal :
  (λ st, match st_pc st with Lret (Some e) => Error e | _ => "" end)
    <$> run [Step CaseSig; Step CaseSig; Step CaseSig; Step CaseSig;
             Deliver 40; Step CaseSig; Step CaseSig] (call boot [28; 40])
  = Some "signal 40: received quit signal".
Proof. reflexivity. Qed.

(** C2: when the call returns after its [select] took the case of the
    context, the result is exactly what [ctx.Err()] reports, one of the
    context's own errors with nothing wrapped around it; no signal was
    received, and the result does not match [ErrReceivedQuitSignal]. *)
Theorem C2_context_done_returns_ctx_err w0 sig sched st ret :
  ctx_ok (w_ctx w0) →
  run sched (call w0 sig) = Some st →
  st_pc st = Lret ret →
  EvDone ∈ st_trace st →
  ret = ctx_Err (w_ctx (st_world st)) ∧
  (∃ r, ret = Some (reason_err r)) ∧
  (∀ s, EvRecv s ∉ st_trace st) ∧
  errors_Is ret (Some ErrReceivedQuitSignal) = false.
Proof.
  intros Hok Hrun Hpc Hd.
  destruct (returned_chosen _ _ _ _ _ Hrun Hpc) as (c & tr & _ & _ & Hch & Htr).
  rewrite Htr in *.
  destruct Hch as [(Hdone & -> & ->)|(s' & p & Hm & _ & -> & ->)];
    [|set_solver].
  apply (ctx_ok_run _ (call w0 sig)) in Hrun; [|done].
  destruct (ctx_ok_Err _ Hrun Hdone) as [r Hr].
  split_and!; [done|by exists r|set_solver|].
  rewrite Hr. simpl. apply errors_is_reason.
Qed.

Lemma C2_context_done_returns_ctx_err_witness :
  ∃ st ret,
    ctx_ok (w_ctx boot) ∧
    run [Step CaseDone; Step CaseDone; Step CaseDone; Step CaseDone;
         Cancel Canceled; Step CaseDone; Step CaseDone] (call boot []) = Some st ∧
    st_pc st = Lret ret ∧
    EvDone ∈ st_trace st ∧
    ret = Some context_Canceled ∧
    ret = ctx_Err (w_ctx (st_world st)) ∧
    (∃ r, ret = Some (reason_err r)) ∧
    (∀ s, EvRecv s ∉ st_trace st) ∧
    errors_Is ret (Some ErrReceivedQuitSignal) = false.
Proof.
  eexists _, _. split; [reflexivity|].
  split; [vm_compute; reflexivity|].
  split; [reflexivity|].
  assert (EvDone ∈ [EvNotify 1 [2; 15]; EvDone; EvStop 1])
    as Hin by (right; left).
  split; [exact Hin|]. split; [reflexivity|].
  eapply (C2_context_done_returns_ctx_err boot []
            [Step CaseDone; Step CaseDone; Step CaseDone; Step CaseDone;
             Cancel Canceled; Step CaseDone; Step CaseDone]).
  - reflexivity.
  - vm_compute. reflexivity.
  - reflexivity.
  - exact Hin.
Defined.

(** C9: a returned call never reports nil.  Either a signal was received
    and the result wraps [ErrReceivedQuitSignal], or the case of the
    context was taken, the context is done, and the result is its [Err()]. *)
Theorem C9_result_never_nil w0 sig sched st ret :
  ctx_ok (w_ctx w0) →
  run sched (call w0 sig) = Some st →
  st_pc st = Lret ret →
  ret ≠ None ∧
  ((∃ s e, EvRecv s ∈ st_trace st ∧ ret = Some e ∧
           Unwrap e = Some ErrReceivedQuitSignal ∧
           errors_Is ret (Some ErrReceivedQuitSignal) = true) ∨
   (EvDone ∈ st_trace st ∧ ctx_done (w_ctx (st_world st)) = true ∧
    ret = ctx_Err (w_ctx (st_world st)))).
Proof.
  intros Hok Hrun Hpc.
  destruct (returned_chosen _ _ _ _ _ Hrun Hpc) as (c & tr & _ & _ & Hch & Htr).
  rewrite Htr.
  destruct Hch as [(Hdone & -> & ->)|(s' & p & Hm & _ & -> & ->)].
  - apply (ctx_ok_run _ (call w0 sig)) in Hrun; [|done].
    destruct (ctx_ok_Err _ Hrun Hdone) as [r Hr].
    split; [by rewrite Hr|]. right. split_and!; [set_solver|done..].
  - split; [done|]. left. exists s', (quit_error p s').
    split_and!; [set_solver|done..].
Qed.

Lemma C9_result_never_nil_witness :
  ∃ st ret,
    ctx_ok (w_ctx boot) ∧
    run [Cancel DeadlineExceeded; Step CaseDone; Step CaseDone;
         Step CaseDone; Step CaseDone; Deliver SIGQUIT; Step CaseDone;
         Step CaseDone] (call boot [SIGQUIT]) = Some st ∧
    st_pc st = Lret ret ∧
    ret = Some context_DeadlineExceeded ∧
    ret ≠ None ∧
    ((∃ s e, EvRecv s ∈ st_trace st ∧ ret = Some e ∧
             Unwrap e = Some ErrReceivedQuitSignal ∧
             errors_Is ret (Some ErrReceivedQuitSignal) = true) ∨
     (EvDone ∈ st_trace st ∧ ctx_done (w_ctx (st_world st)) = true ∧
      ret = ctx_Err (w_ctx (st_world st)))).
Proof.
  eexists _, _. split; [reflexivity|].
  split; [vm_compute; reflexivity|].
  split; [reflexivity|]. split; [reflexivity|].
  eapply (C9_result_never_nil boot [SIGQUIT]
            [Cancel DeadlineExceeded; Step CaseDone; Step CaseDone;
             Step CaseDone; Step CaseDone; Deliver SIGQUIT; Step CaseDone;
             Step CaseDone]).
  - reflexivity.
  - vm_compute. reflexivity.
  - reflexivity.
Defined.

(** Once the call has returned, nothing that still happens in the process
    reaches it: its result, its history, the signal table it restored and
    the queue of its channel stay as they were. *)
Lemma run_after_return more st st' ret c :
  st_pc st = Lret ret →
  w_handlers (st_world st) !! c = None →
  run more st = Some st' →
  st_pc st' = Lret ret ∧ st_trace st' = st_trace st ∧
  w_handlers (st_world st') = w_handlers (st_world st) ∧
  w_chans (st_world st') !! c = w_chans (st_world st) !! c.
Proof.
  revert st. induction more as [|a more IH]; intros st Hpc Hc; simpl.
  - by intros [= <-].
  - destruct (act a st) as [st1|] eqn:Ha; [|done]. simpl. intros Hrun.
    assert (is_env a = true) as Henv.
    { destruct a; try done. unfold act in Ha.
      destruct (w_alive (st_world st)); [|done].
      unfold ListenForQuitSignal in Ha. by rewrite Hpc in Ha. }
    destruct (act_env _ _ _ Henv Ha) as (Hh & Hp & Ht).
    assert (w_chans (st_world st1) !! c = w_chans (st_world st) !! c) as Hq.
    { unfold act in Ha. destruct (w_alive (st_world st)); [|done].
      destruct a as [r|s|pick]; [| |done]; injection Ha as <-; simpl; [done|].
      apply world_signal_unwanted. unfold want. by rewrite Hc. }
    destruct (IH st1) as (? & ? & ? & ?); [congruence..|].
    split_and!; congruence.
Qed.

(** C7: a returned call registered its channel once and stopped it once,
    after the [select] chose either case and as the last thing before the
    return; the signal table is what it was before the call, and whatever
    happens afterwards (signals of the subscribed set included) changes
    neither the call's result nor the queue of its channel. *)
Theorem C7_subscription_released_once w0 sig sched st ret :
  run sched (call w0 sig) = Some st →
  st_pc st = Lret ret →
  ∃ c o,
    w_handlers w0 !! c = None ∧
    st_trace st = [EvNotify c (effective sig); o; EvStop c] ∧
    (o = EvDone ∨ ∃ s, o = EvRecv s) ∧
    w_handlers (st_world st) = w_handlers w0 ∧
    ∀ more st',
      run more st = Some st' →
      st_pc st' = Lret ret ∧ st_trace st' = st_trace st ∧
      w_handlers (st_world st') = w_handlers w0 ∧
      w_chans (st_world st') !! c = w_chans (st_world st) !! c.
Proof.
  intros Hrun Hpc.
  destruct (returned_chosen _ _ _ _ _ Hrun Hpc) as (c & tr & Hc & Hh & Hch & Htr).
  assert (∃ o, tr = [EvNotify c (effective sig); o] ∧
               (o = EvDone ∨ ∃ s, o = EvRecv s)) as (o & -> & Ho).
  { destruct Hch as [(_ & _ & ->)|(s & p & _ & _ & _ & ->)].
    - exists EvDone. by split; [|left].
    - exists (EvRecv s). split; [done|]. right. by exists s. }
  exists c, o. split_and!; try done.
  intros more st' Hmore.
  destruct (run_after_return more st st' ret c) as (? & ? & ? & ?);
    [done|by rewrite Hh|done|].
  split_and!; congruence.
Qed.

Lemma C7_subscription_released_once_witness :
  ∃ st ret,
    run [Step CaseSig; Step CaseSig; Step CaseSig; Step CaseSig;
         Deliver SIGTERM; Step CaseSig; Step CaseSig] (call boot []) = Some st ∧
    st_pc st = Lret ret ∧
    ∃ c o,
      w_handlers boot !! c = None ∧
      st_trace st = [EvNotify c (effective []); o; EvStop c] ∧
      (o = EvDone ∨ ∃ s, o = EvRecv s) ∧
      w_handlers (st_world st) = w_handlers boot ∧
      ∀ more st',
        run more st = Some st' →
        st_pc st' = Lret ret ∧ st_trace st' = st_trace st ∧
        w_handlers (st_world st') = w_handlers boot ∧
        w_chans (st_world st') !! c = w_chans (st_world st) !! c.
Proof.
  eexists _, _. split; [vm_compute; reflexivity|].
  split; [reflexivity|].
  eapply (C7_subscription_released_once boot []
            [Step CaseSig; Step CaseSig; Step CaseSig; Step CaseSig;
             Deliver SIGTERM; Step CaseSig; Step CaseSig]).
  - vm_compute. reflexivity.
  - reflexivity.
Defined.

(** A wanted, catchable signal reaching a registered channel: it takes the
    free slot, or an earlier subscribed signal already holds the slot. *)
Lemma deliver_registered w0 sig w c s :
  registered w0 sig w c → s ∈ mask sig → uncatchable s = false →
  ∃ s0, s0 ∈ mask sig ∧
        w_chans (world_signal s w) !! c = Some (Chan 1 [s0]) ∧
        (queue w c = Some [] → s0 = s).
Proof.
  intros (Hc & Hh & buf & Hch & Hlen & Hbuf) Hs Hu.
  unfold world_signal, queue. rewrite Hu, Hch. simpl.
  rewrite signal_process_lookup, Hch. simpl.
  rewrite (elem_of_mask_signum _ _ Hs).
  assert (0 ≤ s) as H0 by (apply elem_of_mask in Hs as (? & ? & ? & ?); lia).
  rewrite bool_decide_eq_false_2 by lia.
  unfold want. rewrite Hh, lookup_insert_eq, bool_decide_eq_true_2 by done.
  destruct buf as [|x [|y buf]]; simpl in Hlen; [| |lia].
  - exists s. by split_and!.
  - exists x. split_and!; [apply Hbuf; set_solver|done|done].
Qed.

(** A signal outside the subscribed set leaves the channel alone. *)
Lemma deliver_unsubscribed w0 sig w c s :
  registered w0 sig w c → s ∉ mask sig →
  w_chans (world_signal s w) !! c = w_chans w !! c.
Proof.
  intros (Hc & Hh & _) Hs. apply world_signal_unwanted.
  unfold want. rewrite Hh, lookup_insert_eq.
  apply bool_decide_eq_false_2. intros Hn. apply Hs.
  unfold signum in Hn |- *. case_bool_decide; [done|].
  apply elem_of_mask in Hn as (? & ? & ? & ?). lia.
Qed.



Lemma select_done_blocked w c tr :
  ctx_done (w_ctx w) = false →
  ListenForQuitSignal CaseDone (St w (L53 c) tr) = None.
Proof. intros H. unfold ListenForQuitSignal. simpl. by rewrite H. Qed.

(** A kept signal stays kept, whatever happens next. *)
Lemma pending_act c s0 a st st' :
  pending c s0 st → act a st = Some st' → pending c s0 st'.
Proof.
  unfold act. destruct (w_alive (st_world st)); [|done].
  destruct st as [w p tr]. destruct a as [r|s|pick]; simpl.
  - intros H [= <-]. unfold pending in *; simpl in *.
    destruct p; try done; (destruct H as [H|[Hd ->]]; [by left|right]);
      by rewrite cancel_done.
  - intros H [= <-]. unfold pending in *; simpl in *.
    destruct p as [sig|sig|c' sig|c'|c'|c' ret|ret]; try done;
      rewrite ?world_signal_ctx; try done.
    all: destruct H as [-> Hch]; split; [done|].
    all: unfold world_signal; destruct (uncatchable s); simpl; [done|].
    all: rewrite signal_process_lookup, Hch; simpl.
    all: case_bool_decide; [done|]; by destruct (want _ _ _).
  - unfold ListenForQuitSignal, pending; simpl.
    destruct p as [sig|sig|c' sig|c'|c'|c' ret|ret]; simpl; try done.
    + by intros ? [= <-].
    + intros [-> Hch]. destruct pick.
      * destruct (ctx_done (w_ctx w)) eqn:Hd; [|done].
        intros [= <-]; simpl. by right.
      * rewrite Hch. simpl. intros [= <-]; simpl. left.
        split; [set_solver|by eexists].
    + intros [[Hin Hp]|Hp] [= <-]; simpl; [left|by right].
      split; [set_solver|done].
Qed.

Lemma pending_run c s0 sched st st' :
  pending c s0 st → run sched st = Some st' → pending c s0 st'.
Proof.
  revert st. induction sched as [|a sched IH]; intros st Hp; simpl.
  - by intros [= <-].
  - destruct (act a st) as [st1|] eqn:Ha; [|done]. simpl.
    apply IH. by eapply pending_act.
Qed.

(** A live call that has not returned and for which a signal is kept can
    always take a step when the runtime tries the case of the channel. *)
Lemma pending_progress c s0 st :
  pending c s0 st → w_alive (st_world st) = true →
  (∀ ret, st_pc st ≠ Lret ret) →
  is_Some (act (Step CaseSig) st).
Proof.
  unfold pending, act. intros Hp -> Hnr. destruct st as [w p tr].
  unfold ListenForQuitSignal. simpl in *.
  destruct p as [sig|sig|c' sig|c'|c'|c' ret|ret]; try done.
  - destruct Hp as [-> Hch]. rewrite Hch. simpl. by eexists.
  - by destruct (Hnr ret).
Qed.

Lemma before_select_progress pick st :
  before_select (st_pc st) = true → w_alive (st_world st) = true →
  is_Some (act (Step pick) st).
Proof.
  unfold act. intros Hb ->. unfold ListenForQuitSignal.
  destruct (st_pc st); try done; by eexists.
Qed.

(** What the invariant says while the subscription is active. *)
Lemma subscribed_registered w0 sig sched st c :
  run sched (call w0 sig) = Some st →
  st_pc st = L51 c ∨ st_pc st = L53 c →
  registered w0 (effective sig) (st_world st) c.
Proof.
  intros Hrun Hpc. apply listen_inv_run in Hrun. unfold inv in Hrun.
  by destruct Hpc as [Hpc|Hpc]; rewrite Hpc in Hrun; destruct Hrun.
Qed.

Lemma trace_received w0 sig sched st s :
  run sched (call w0 sig) = Some st →
  EvRecv s ∈ st_trace st → s ∈ mask (effective sig).
Proof.
  intros Hrun Hs. apply listen_inv_run in Hrun. unfold inv in Hrun.
  destruct (st_pc st) as [sg|sg|c sg|c|c|c ret|ret].
  - destruct Hrun as (_ & _ & Ht). rewrite Ht in Hs. set_solver.
  - destruct Hrun as (_ & _ & Ht). rewrite Ht in Hs. set_solver.
  - destruct Hrun as (_ & _ & _ & _ & Ht). rewrite Ht in Hs. set_solver.
  - destruct Hrun as (_ & Ht). rewrite Ht in Hs. set_solver.
  - destruct Hrun as (_ & Ht). rewrite Ht in Hs. set_solver.
  - destruct Hrun as (_ & [(_ & _ & Ht)|(s' & p & Hm & _ & _ & Ht)]);
      rewrite Ht in Hs; [set_solver|].
    by assert (s = s') as -> by set_solver.
  - destruct Hrun as (c & tr & _ & _ & [(_ & _ & ->)|(s' & p & Hm & _ & _ & ->)] & Ht);
      rewrite Ht in Hs; [set_solver|].
    by assert (s = s') as -> by set_solver.
Qed.



(** C8: nothing before the [select] can block; [signal.Notify] at line 50
    registers the channel, with its single slot free, for the listed
    signals whose number is in range; and when the call reaches the
    [select] the channel is in the signal table for that set.  From the
    registration on, a subscribed signal that is delivered (one that can be
    caught) is kept: it takes the slot, unless an earlier subscribed signal
    holds it; the slot keeps that signal whatever happens until the
    [select] chooses; the case of the channel is then ready, and it is the
    only ready case while the context is not done; so a returned call has
    received the kept signal and reports a quit-signal error, or, chosen
    instead, the reason of a context that is done. *)
Theorem C8_signal_after_registration_kept w0 sig sched st :
  run sched (call w0 sig) = Some st →
  (before_select (st_pc st) = true → w_alive (st_world st) = true →
   ∀ pick, is_Some (act (Step pick) st)) ∧
  (∀ c sg pick st1,
     st_pc st = L50 c sg → act (Step pick) st = Some st1 →
     st_pc st1 = L51 c ∧
     (∃ h, w_handlers (st_world st1) !! c = Some h ∧
           ∀ n, n ∈ h ↔ n ∈ effective sig ∧ 0 ≤ n < numSig) ∧
     w_chans (st_world st1) !! c = Some (Chan 1 [])) ∧
  ∀ c, st_pc st = L51 c ∨ st_pc st = L53 c →
    (∃ h, w_handlers (st_world st) !! c = Some h ∧
          ∀ n, n ∈ h ↔ n ∈ effective sig ∧ 0 ≤ n < numSig) ∧
    (∃ buf, w_chans (st_world st) !! c = Some (Chan 1 buf)) ∧
    ∀ s st1,
      s ∈ effective sig → 0 ≤ s < numSig → s ≠ SIGKILL → s ≠ SIGSTOP →
      act (Deliver s) st = Some st1 →
      ∃ s0,
        (s0 ∈ effective sig ∧ 0 ≤ s0 < numSig) ∧
        (queue (st_world st) c = Some [] → s0 = s) ∧
        ∀ sched2 st2,
          run sched2 st1 = Some st2 →
          (st_pc st2 = L51 c ∨ st_pc st2 = L53 c →
           queue (st_world st2) c = Some [s0]) ∧
          (w_alive (st_world st2) = true → (∀ ret, st_pc st2 ≠ Lret ret) →
           is_Some (act (Step CaseSig) st2)) ∧
          (st_pc st2 = L53 c → ctx_done (w_ctx (st_world st2)) = false →
           act (Step CaseDone) st2 = None) ∧
          (∀ ret, st_pc st2 = Lret ret →
             (EvRecv s0 ∈ st_trace st2 ∧
              ∃ e, ret = Some e ∧
                   Unwrap e = Some ErrReceivedQuitSignal ∧
                   errors_Is ret (Some ErrReceivedQuitSignal) = true) ∨
             (ctx_done (w_ctx (st_world st2)) = true ∧
              ret = ctx_Err (w_ctx (st_world st2)))).
Proof.
  intros Hrun. split.
  { intros Hb Hal pick. by apply before_select_progress. }
  split.
  { intros c sg pick st1 Hpc. apply listen_inv_run in Hrun.
    unfold inv in Hrun. rewrite Hpc in Hrun.
    destruct Hrun as (-> & Hh & Hc & Hch & _).
    unfold act, ListenForQuitSignal. rewrite Hpc.
    destruct (w_alive (st_world st)); [|done]. intros [= <-]; simpl.
    split_and!; [done| |done].
    exists (mask (effective sig)). split; [|apply elem_of_mask_range].
    rewrite Hh, signal_Notify_fresh by (done || apply effective_nonempty).
    by rewrite lookup_insert_eq. }
  intros c Hpc.
  pose proof (subscribed_registered _ _ _ _ c Hrun Hpc) as Hreg.
  split_and!.
  - exists (mask (effective sig)). split; [|apply elem_of_mask_range].
    destruct Hreg as (_ & -> & _). by rewrite lookup_insert_eq.
  - destruct Hreg as (_ & _ & buf & Hch & _). by exists buf.
  - intros s st1 Hs Hr Hk Hst. unfold act.
    destruct (w_alive (st_world st)) eqn:Hal; [|done]. intros [= <-].
    assert (s ∈ mask (effective sig)) as Hm by by apply elem_of_mask_range.
    assert (uncatchable s = false) as Hu.
    { unfold uncatchable. by rewrite !bool_decide_eq_false_2. }
    destruct (deliver_registered _ _ _ _ s Hreg Hm Hu) as (s0 & Hs0 & Hq & Hfree).
    exists s0. split; [by apply elem_of_mask_range in Hs0|].
    split; [done|].
    intros sched2 st2 Hrun2.
    assert (pending c s0 st2) as Hp.
    { eapply pending_run; [|done]. unfold pending; simpl.
      by destruct Hpc as [-> | ->]. }
    split_and!.
    + unfold pending in Hp. unfold queue.
      intros [E|E]; rewrite E in Hp; destruct Hp as [_ ->]; done.
    + intros Hal2 Hnr. by eapply pending_progress.
    + intros E Hd. unfold act. destruct (w_alive (st_world st2)); [|done].
      destruct st2 as [w2 p2 tr2]; simpl in *; subst p2.
      by apply select_done_blocked.
    + intros ret E. unfold pending in Hp. rewrite E in Hp.
      destruct Hp as [[Hin [p ->]]|Hp]; [left|by right].
      split; [done|]. by exists (quit_error p s0).
Qed.

Lemma C8_signal_after_registration_kept_witness :
  ∃ st st1 st2,
    run [Step CaseSig; Step CaseSig; Step CaseSig] (call boot [SIGQUIT])
      = Some st ∧
    st_pc st = L51 1 ∧
    act (Deliver SIGQUIT) st = Some st1 ∧
    run [Step CaseSig; Deliver SIGQUIT; Step CaseSig; Step CaseSig] st1
      = Some st2 ∧
    st_pc st2 = Lret (Some (wrapError 4 "quit: received quit signal"
                              ErrReceivedQuitSignal)) ∧
    (before_select (st_pc st) = true → w_alive (st_world st) = true →
     ∀ pick, is_Some (act (Step pick) st)) ∧
    (∀ c sg pick st1,
       st_pc st = L50 c sg → act (Step pick) st = Some st1 →
       st_pc st1 = L51 c ∧
       (∃ h, w_handlers (st_world st1) !! c = Some h ∧
             ∀ n, n ∈ h ↔ n ∈ effective [SIGQUIT] ∧ 0 ≤ n < numSig) ∧
       w_chans (st_world st1) !! c = Some (Chan 1 [])) ∧
    ∀ c, st_pc st = L51 c ∨ st_pc st = L53 c →
      (∃ h, w_handlers (st_world st) !! c = Some h ∧
            ∀ n, n ∈ h ↔ n ∈ effective [SIGQUIT] ∧ 0 ≤ n < numSig) ∧
      (∃ buf, w_chans (st_world st) !! c = Some (Chan 1 buf)) ∧
      ∀ s st1,
        s ∈ effective [SIGQUIT] → 0 ≤ s < numSig →
        s ≠ SIGKILL → s ≠ SIGSTOP →
        act (Deliver s) st = Some st1 →
        ∃ s0,
          (s0 ∈ effective [SIGQUIT] ∧ 0 ≤ s0 < numSig) ∧
          (queue (st_world st) c = Some [] → s0 = s) ∧
          ∀ sched2 st2,
            run sched2 st1 = Some st2 →
            (st_pc st2 = L51 c ∨ st_pc st2 = L53 c →
             queue (st_world st2) c = Some [s0]) ∧
            (w_alive (st_world st2) = true → (∀ ret, st_pc st2 ≠ Lret ret) →
             is_Some (act (Step CaseSig) st2)) ∧
            (st_pc st2 = L53 c → ctx_done (w_ctx (st_world st2)) = false →
             act (Step CaseDone) st2 = None) ∧
            (∀ ret, st_pc st2 = Lret ret →
               (EvRecv s0 ∈ st_trace st2 ∧
                ∃ e, ret = Some e ∧
                     Unwrap e = Some ErrReceivedQuitSignal ∧
                     errors_Is ret (Some ErrReceivedQuitSignal) = true) ∨
               (ctx_done (w_ctx (st_world st2)) = true ∧
                ret = ctx_Err (w_ctx (st_world st2)))).
Proof.
  eexists _, _, _. split; [vm_compute; reflexivity|].
  split; [reflexivity|]. split; [vm_compute; reflexivity|].
  split; [vm_compute; reflexivity|]. split; [reflexivity|].
  eapply (C8_signal_after_registration_kept boot [SIGQUIT]
            [Step CaseSig; Step CaseSig; Step CaseSig]).
  vm_compute. reflexivity.
Defined.

(** C8 as the claim words it does not hold: between the call and the
    return of [signal.Notify] at line 50 there is a window.  Below, some
    other part of the program is registered for SIGINT on channel 5 (so
    the runtime hands the signal on).  The call is made with an empty
    list, so SIGINT is one of its signals; SIGINT is delivered right after
    the call, before line 45 has run.  It reaches channel 5 only: the
    call goes on to make its channel, registers it, and arrives at the
    [select] with an empty queue and a context that is not done, where it
    has no step: the signal is lost to it. *)
Lemma C8_signal_before_Notify_lost :
  ∃ w0 st1 st2,
    w0 = World context_Background {[5%positive := {[SIGINT]}]}
           {[5%positive := Chan 1 []]} first_heap_ptr true ∧
    SIGINT ∈ effective [] ∧
    act (Deliver SIGINT) (call w0 []) = Some st1 ∧
    queue (st_world st1) 5 = Some [SIGINT] ∧
    run [Step CaseSig; Step CaseSig; Step CaseSig; Step CaseSig] st1
      = Some st2 ∧
    w_alive (st_world st2) = true ∧
    st_pc st2 = L53 6 ∧
    w_handlers (st_world st2) !! 6%positive = Some {[SIGINT; SIGTERM]} ∧
    queue (st_world st2) 6 = Some [] ∧
    ctx_done (w_ctx (st_world st2)) = false ∧
    act (Step CaseSig) st2 = None ∧ act (Step CaseDone) st2 = None.
Proof.
  eexists _, _, _. split; [reflexivity|]. split; [set_solver|].
  split; [vm_compute; reflexivity|]. split; [by vm_compute|].
  split; [vm_compute; reflexivity|].
  split_and!; by vm_compute.
Qed.

End ListenProofs.

(** * WaitWithTimeout: invariants *)

Module WaitProofs.
Import Wait.

Lemma wait_run_app timeout a b st :
  run timeout (a ++ b) st = run timeout a st ≫= run timeout b.
Proof.
  revert st. induction a as [|x a IH]; intros st; simpl; [done|].
  destruct (act timeout x st) as [st1|]; simpl; [apply IH|done].
Qed.

Lemma wait_run_snoc timeout sched a st :
  run timeout (sched ++ [a]) st = run timeout sched st ≫= act timeout a.
Proof.
  rewrite wait_run_app. destruct (run timeout sched st) as [st1|]; simpl; [|done].
  by destruct (act timeout a st1).
Qed.

Lemma glog_snoc tr e :
  glog (tr ++ [e]) = glog tr ++ (if is_go_event e then [e] else []).
Proof. unfold glog. rewrite List.filter_app. simpl. by destruct (is_go_event e). Qed.

Lemma mlog_snoc tr e :
  mlog (tr ++ [e]) = mlog tr ++ (if is_go_event e then [] else [e]).
Proof. unfold mlog. rewrite List.filter_app. simpl. by destruct (is_go_event e). Qed.

Lemma when_nonpositive now d : d ≤ 0 → when now d = now.
Proof. intros H. unfold when. by rewrite bool_decide_eq_true_2. Qed.

Lemma mlog_nil_glog tr : mlog tr = [] → glog tr = tr.
Proof.
  induction tr as [|e tr IH]; [done|]. unfold mlog, glog in *. simpl.
  destruct (is_go_event e); simpl; [|done]. intros H. by rewrite IH.
Qed.

(** A step of the goroutine keeps it racing, and changes nothing else. *)
Lemma racing_goroutine ctx now rec gos p tr m i st' :
  racing gos rec tr m →
  goroutine i (St ctx now rec gos p tr) = Some st' →
  st_ctx st' = ctx ∧ st_now st' = now ∧ st_pc st' = p ∧
  racing (st_gos st') (st_rec st') (st_trace st') m.
Proof.
  intros (g & buf & tr' & -> & -> & -> & Hg & Hm). unfold goroutine.
  destruct i as [|i]; simpl; [|done].
  destruct g as [| |r|]; simpl in *; try done.
  - intros [= <-]; simpl. split_and!; try done.
    destruct Hg as [Hg ->]. exists Gwait, [], (tr' ++ [EvInvoke]).
    rewrite glog_snoc, mlog_snoc, Hg, app_nil_r. by split_and!.
  - destruct Hg as [Hg ->]. unfold chan_send. simpl.
    intros [= <-]; simpl. split_and!; try done.
    exists Gexit, [r], (tr' ++ [EvDeliver r]).
    rewrite glog_snoc, mlog_snoc, Hg, app_nil_r. split_and!; try done.
    by exists r.
Qed.

Lemma racing_wait_returns ctx now rec gos p tr m i r st' :
  racing gos rec tr m →
  wait_returns i r (St ctx now rec gos p tr) = Some st' →
  st_ctx st' = ctx ∧ st_now st' = now ∧ st_pc st' = p ∧
  racing (st_gos st') (st_rec st') (st_trace st') m.
Proof.
  intros (g & buf & tr' & -> & -> & -> & Hg & Hm). unfold wait_returns.
  destruct i as [|i]; simpl; [|done].
  destruct g as [| |r'|]; simpl in *; try done.
  intros [= <-]; simpl. split_and!; try done.
  destruct Hg as [Hg ->]. exists (Gsend r), [], (tr' ++ [EvReturn r]).
  rewrite glog_snoc, mlog_snoc, Hg, app_nil_r. by split_and!.
Qed.

Lemma wait_inv_act timeout a st st' :
  inv timeout st → act timeout a st = Some st' → inv timeout st'.
Proof.
  destruct st as [ctx now rec gos p tr].
  destruct a as [r|d|pick|i|i r]; simpl.
  - (* the context is cancelled *)
    intros H [= <-]. unfold inv in *; simpl in *.
    destruct p; try done; destruct H as [Hd H]; rewrite (cancel_done _ _ Hd);
      done.
  - (* the clock advances *)
    case_bool_decide as Hd; [|done]. intros H [= <-].
    unfold inv in *; simpl in *. destruct p; try done.
    destruct H as (? & Htm & ?). split_and!; [done| |done].
    intros Ht. specialize (Htm Ht). lia.
  - (* the caller takes a step *)
    unfold WaitWithTimeout, inv; simpl.
    destruct p as [| | | |tm|ret]; simpl.
    + intros (-> & -> & ->). destruct (ctx_done ctx) eqn:Hd; [|done].
      by intros [= <-].
    + intros (Hd & -> & -> & ->) [= <-]. done.
    + intros (Hd & -> & -> & ->) [= <-]; simpl. split; [done|].
      by exists Gcall, [], [].
    + intros (Hd & Hr) [= <-]; simpl. split_and!; [done| |done].
      intros Ht. rewrite when_nonpositive; [lia|done].
    + intros (Hd & Htm & g & buf & tr' & -> & -> & -> & Hg & Hm).
      pose proof (mlog_nil_glog _ Hm) as Hgl. rewrite Hgl in Hg.
      destruct pick; simpl.
      * unfold chan_recv; simpl. destruct buf as [|r buf]; [done|].
        intros [= <-]; simpl. split; [done|]. right.
        destruct g as [| |r'|]; simpl in Hg; try (by destruct Hg).
        destruct Hg as (r' & -> & [= -> ->]). done.
      * destruct (timer_fired tm now); [|done]. intros [= <-]; simpl.
        split; [done|]. left. split; [done|].
        exists g, buf, (tr' ++ [EvTimeout]).
        rewrite glog_snoc, mlog_snoc, Hm, Hgl, app_nil_r. by split_and!.
    + done.
  - (* the goroutine takes a step *)
    intros H Hgo. unfold inv in *; simpl in *.
    destruct p as [| | | |tm|ret]; simpl in *.
    + destruct H as (-> & -> & ->). by destruct i.
    + destruct H as (_ & -> & -> & ->). by destruct i.
    + destruct H as (_ & -> & -> & ->). by destruct i.
    + destruct H as (Hd & Hr).
      destruct (racing_goroutine _ _ _ _ _ _ _ _ _ Hr Hgo) as (-> & _ & -> & ?).
      done.
    + destruct H as (Hd & Htm & Hr).
      destruct (racing_goroutine _ _ _ _ _ _ _ _ _ Hr Hgo) as (-> & -> & -> & ?).
      done.
    + destruct H as (Hd & [[-> Hr]|(-> & -> & ->)]).
      * destruct (racing_goroutine _ _ _ _ _ _ _ _ _ Hr Hgo) as (-> & _ & -> & ?).
        split; [done|]. by left.
      * by destruct i as [|[|i]].
  - (* the wait call returns *)
    intros H Hgo. unfold inv in *; simpl in *.
    destruct p as [| | | |tm|ret]; simpl in *.
    + destruct H as (-> & -> & ->). by destruct i.
    + destruct H as (_ & -> & -> & ->). by destruct i.
    + destruct H as (_ & -> & -> & ->). by destruct i.
    + destruct H as (Hd & Hr).
      destruct (racing_wait_returns _ _ _ _ _ _ _ _ _ _ Hr Hgo) as (-> & _ & -> & ?).
      done.
    + destruct H as (Hd & Htm & Hr).
      destruct (racing_wait_returns _ _ _ _ _ _ _ _ _ _ Hr Hgo) as (-> & -> & -> & ?).
      done.
    + destruct H as (Hd & [[-> Hr]|(-> & -> & ->)]).
      * destruct (racing_wait_returns _ _ _ _ _ _ _ _ _ _ Hr Hgo) as (-> & _ & -> & ?).
        split; [done|]. by left.
      * by destruct i as [|[|i]].
Qed.

Lemma wait_inv_run timeout ctx now sched st :
  run timeout sched (call ctx now) = Some st → inv timeout st.
Proof.
  revert st. induction sched as [|a sched IH] using rev_ind; intros st.
  - by intros [= <-].
  - rewrite wait_run_snoc.
    destruct (run timeout sched (call ctx now)) as [st1|]; [|done].
    simpl. intros H. eapply wait_inv_act; [by apply IH|done].
Qed.



Lemma elem_of_glog e tr : e ∈ tr → is_go_event e = true → e ∈ glog tr.
Proof.
  intros He Hg. apply list_elem_of_In. apply List.filter_In.
  split; [by apply list_elem_of_In|done].
Qed.

Lemma elem_of_glog_inv e tr : e ∈ glog tr → e ∈ tr.
Proof.
  intros He. apply list_elem_of_In. apply list_elem_of_In in He.
  by apply List.filter_In in He as [? _].
Qed.

Lemma invocations_glog tr : invocations tr = invocations (glog tr).
Proof.
  unfold invocations, glog. induction tr as [|e tr IH]; [done|].
  destruct e; simpl; congruence.
Qed.

Lemma returned_glog tr : returned tr = returned (glog tr).
Proof.
  unfold returned, glog. induction tr as [|e tr IH]; [done|].
  destruct e; simpl; congruence.
Qed.

Lemma spawns_mlog tr : spawns tr = spawns (mlog tr).
Proof.
  unfold spawns, mlog. induction tr as [|e tr IH]; [done|].
  destruct e; simpl; congruence.
Qed.

(** What the history says about a racing goroutine. *)
Lemma racing_counts gos rec tr m :
  racing gos rec tr m →
  ∃ g buf, gos = [g] ∧ rec = Some (Chan 1 buf) ∧
    spawns tr = S (spawns m) ∧
    match g with
    | Gcall => invocations tr = 0%nat ∧ returned tr = [] ∧ buf = [] ∧
               ∀ r, EvDeliver r ∉ tr
    | Gwait => invocations tr = 1%nat ∧ returned tr = [] ∧ buf = [] ∧
               ∀ r, EvDeliver r ∉ tr
    | Gsend r => invocations tr = 1%nat ∧ returned tr = [r] ∧ buf = [] ∧
                 ∀ r, EvDeliver r ∉ tr
    | Gexit => ∃ r, invocations tr = 1%nat ∧ returned tr = [r] ∧ buf = [r] ∧
                    EvDeliver r ∈ tr ∧ ∀ r', EvDeliver r' ∈ tr → r' = r
    end.
Proof.
  intros (g & buf & tr' & -> & -> & -> & Hg & Hm). exists g, buf.
  split_and!; try done.
  { rewrite spawns_mlog. unfold mlog in *. simpl. by rewrite Hm. }
  assert (∀ r, EvDeliver r ∈ EvSpawn :: tr' → EvDeliver r ∈ glog tr') as Hd.
  { intros r Hr. apply elem_of_glog; [|done]. set_solver. }
  rewrite invocations_glog, returned_glog.
  change (glog (EvSpawn :: tr')) with (glog tr').
  destruct g as [| |r|]; simpl in Hg.
  - destruct Hg as [Hg ->]. rewrite Hg in *. split_and!; try done.
    intros r Hr%Hd. set_solver.
  - destruct Hg as [Hg ->]. rewrite Hg in *. split_and!; try done.
    intros r Hr%Hd. set_solver.
  - destruct Hg as [Hg ->]. rewrite Hg in *. split_and!; try done.
    intros r' Hr%Hd. set_solver.
  - destruct Hg as (r & Hg & ->). exists r.
    assert (EvDeliver r ∈ EvSpawn :: tr').
    { right. apply (elem_of_glog_inv _ tr'). rewrite Hg. set_solver. }
    rewrite Hg in *. split_and!; try done. intros r' Hr%Hd. set_solver.
Qed.

Lemma when_positive now d :
  0 < d → 0 ≤ now → now + d < 2 ^ 63 → when now d = now + d.
Proof.
  intros Hd Hn Hs. unfold when, int64_wrap.
  rewrite bool_decide_eq_false_2 by lia.
  rewrite Z.mod_small by lia.
  rewrite bool_decide_eq_false_2 by lia. lia.
Qed.

(** The cases of Test_WaitWithTimeout, as runs of the machine (a second is
    1000000000 nanoseconds). *)

Example test_wait_returns_nil_before_timeout :
  st_pc <$> run 1000000000
              [Cancel Canceled; Main CaseRec; Main CaseRec; Main CaseRec;
               Main CaseRec; Go 0%nat; WaitReturns 0%nat None; Go 0%nat;
               Main CaseRec]
              (call context_Background 0)
  = Some (Wret None).
Proof. reflexivity. Qed.

Example test_wait_returns_error_before_timeout :
  st_pc <$> run 1000000000
              [Cancel Canceled; Main CaseRec; Main CaseRec; Main CaseRec;
               Main CaseRec; Go 0%nat;
               WaitReturns 0%nat (Some (errorString 7 "error from wait"));
               Go 0%nat; Main CaseRec]
              (call context_Background 0)
  = Some (Wret (Some (errorString 7 "error from wait"))).
Proof. reflexivity. Qed.

(** While the timer has not fired and [wait] is still running, the caller
    is blocked; at the timeout it returns, and the late result of [wait]
    ends up in [rec]. *)
Example test_wait_blocks_longer_than_timeout :
  ∃ st st',
    run 1000000000
      [Cancel Canceled; Main CaseRec; Main CaseRec; Main CaseRec;
       Main CaseRec; Go 0%nat; Tick 999999999]
      (call context_Background 0) = Some st ∧
    act 1000000000 (Main CaseRec) st = None ∧
    act 1000000000 (Main CaseTimer) st = None ∧
    run 1000000000
      [Tick 1; Main CaseTimer; Tick 500000000; WaitReturns 0%nat None;
       Go 0%nat] st = Some st' ∧
    st_pc st' = Wret (Some ErrWaitDeadlineExceeded) ∧
    st_rec st' = Some (Chan 1 [None]).
Proof. eexists _, _. split; [vm_compute; reflexivity|]. by vm_compute. Qed.

(** With the result of [wait] in [rec] and the timer not yet fired, only the
    case of [rec] is ready. *)
Example result_before_timer :
  ∃ st,
    run 1000000000
      [Cancel Canceled; Main CaseRec; Main CaseRec; Main CaseRec;
       Main CaseRec; Go 0%nat; WaitReturns 0%nat None; Go 0%nat; Tick 7]
      (call context_Background 0) = Some st ∧
    st_pc st = W109s 1000000000 ∧
    act 1000000000 (Main CaseTimer) st = None ∧
    st_pc <$> act 1000000000 (Main CaseRec) st = Some (Wret None).
Proof. eexists. split; [vm_compute; reflexivity|]. by vm_compute. Qed.

(** * WaitWithTimeout: the claims *)




(** C4: the goroutine never blocks on its send, the single slot of [rec]
    being free whenever it holds a result.  At the [select] the case of the
    timer returns [ErrWaitDeadlineExceeded] and touches neither the
    goroutine nor [rec]; with the timer fired and nothing delivered it is
    the only ready case.  After such a return the caller takes no further
    step, while the goroutine goes on as if nothing had happened: it calls
    [wait], [wait] may return, the result is sent without blocking, and it
    then stays in [rec], unread. *)
Theorem C4_timeout_abandons_wait timeout ctx now sched st :
  run timeout sched (call ctx now) = Some st →
  (∀ i r,
     st_gos st !! i = Some (Gsend r) →
     ∃ st1, act timeout (Go i) st = Some st1 ∧
            st_gos st1 = [Gexit] ∧ st_rec st1 = Some (Chan 1 [r]) ∧
            st_pc st1 = st_pc st) ∧
  (∀ tm st1,
     st_pc st = W109s tm → act timeout (Main CaseTimer) st = Some st1 →
     st_pc st1 = Wret (Some ErrWaitDeadlineExceeded) ∧
     st_gos st1 = st_gos st ∧ st_rec st1 = st_rec st) ∧
  (∀ tm,
     st_pc st = W109s tm → timer_fired tm (st_now st) = true →
     (∀ r, EvDeliver r ∉ st_trace st) →
     act timeout (Main CaseRec) st = None ∧
     is_Some (act timeout (Main CaseTimer) st)) ∧
  (∀ ret,
     st_pc st = Wret ret → EvTimeout ∈ st_trace st →
     ret = Some ErrWaitDeadlineExceeded ∧
     (∀ pick, act timeout (Main pick) st = None) ∧
     ∃ g, st_gos st = [g] ∧
          match g with
          | Gcall => is_Some (act timeout (Go 0%nat) st)
          | Gwait => ∀ r, is_Some (act timeout (WaitReturns 0%nat r) st)
          | Gsend r => is_Some (act timeout (Go 0%nat) st)
          | Gexit => ∃ r, st_rec st = Some (Chan 1 [r]) ∧
                          returned (st_trace st) = [r]
          end).
Proof.
  intros Hrun. apply wait_inv_run in Hrun. unfold inv in Hrun.
  destruct st as [c n rec gos p tr]; simpl in *. split_and!.
  - intros i r Hi.
    assert (∃ m, racing gos rec tr m) as [m Hrace].
    { destruct p as [| | | |tm|ret]; try (destruct Hrun as (_ & _ & -> & _));
        try (destruct Hrun as (-> & -> & _)); try done.
      - destruct Hrun as (_ & ?). by eexists.
      - destruct Hrun as (_ & _ & ?). by eexists.
      - destruct Hrun as (_ & [[_ ?]|(-> & _)]); [by eexists|].
        by destruct i as [|[|i]]. }
    destruct (racing_counts _ _ _ _ Hrace) as (g & buf & -> & -> & _ & Hcnt).
    destruct i as [|i]; [|done]. injection Hi as ->.
    destruct Hcnt as (_ & _ & -> & _).
    unfold goroutine, chan_send. simpl. by eexists.
  - intros tm st1 ->. destruct (timer_fired tm n); [|done].
    by intros [= <-].
  - intros tm -> Htm Hno. rewrite Htm. split; [|by eexists].
    destruct Hrun as (_ & _ & Hrace).
    destruct (racing_counts _ _ _ _ Hrace) as (g & buf & -> & -> & _ & Hcnt).
    destruct g as [| |r|]; try (by destruct Hcnt as (_ & _ & -> & _)).
    destruct Hcnt as (r & _ & _ & _ & Hin & _). by destruct (Hno r).
  - intros ret -> Ht. destruct Hrun as (_ & [[-> Hrace]|(_ & _ & ->)]);
      [|set_solver].
    split_and!; try done.
    destruct (racing_counts _ _ _ _ Hrace) as (g & buf & -> & -> & _ & Hcnt).
    exists g. split; [done|]. unfold goroutine, wait_returns; simpl.
    destruct g as [| |r|].
    + by eexists.
    + intros r. by eexists.
    + destruct Hcnt as (_ & _ & -> & _). by eexists.
    + destruct Hcnt as (r & _ & ? & -> & _). by exists r.
Qed.

Lemma C4_timeout_abandons_wait_witness :
  ∃ st,
    run 1000000000
      [Cancel Canceled; Main CaseRec; Main CaseRec; Main CaseRec;
       Go 0%nat; Main CaseRec; Tick 1000000000; Main CaseTimer;
       WaitReturns 0%nat None]
      (call context_Background 0) = Some st ∧
    st_pc st = Wret (Some ErrWaitDeadlineExceeded) ∧
    st_gos st = [Gsend None] ∧
    (∀ i r,
       st_gos st !! i = Some (Gsend r) →
       ∃ st1, act 1000000000 (Go i) st = Some st1 ∧
              st_gos st1 = [Gexit] ∧ st_rec st1 = Some (Chan 1 [r]) ∧
              st_pc st1 = st_pc st) ∧
    (∀ tm st1,
       st_pc st = W109s tm → act 1000000000 (Main CaseTimer) st = Some st1 →
       st_pc st1 = Wret (Some ErrWaitDeadlineExceeded) ∧
       st_gos st1 = st_gos st ∧ st_rec st1 = st_rec st) ∧
    (∀ tm,
       st_pc st = W109s tm → timer_fired tm (st_now st) = true →
       (∀ r, EvDeliver r ∉ st_trace st) →
       act 1000000000 (Main CaseRec) st = None ∧
       is_Some (act 1000000000 (Main CaseTimer) st)) ∧
    (∀ ret,
       st_pc st = Wret ret → EvTimeout ∈ st_trace st →
       ret = Some ErrWaitDeadlineExceeded ∧
       (∀ pick, act 1000000000 (Main pick) st = None) ∧
       ∃ g, st_gos st = [g] ∧
            match g with
            | Gcall => is_Some (act 1000000000 (Go 0%nat) st)
            | Gwait => ∀ r, is_Some (act 1000000000 (WaitReturns 0%nat r) st)
            | Gsend r => is_Some (act 1000000000 (Go 0%nat) st)
            | Gexit => ∃ r, st_rec st = Some (Chan 1 [r]) ∧
                            returned (st_trace st) = [r]
            end).
Proof.
  eexists. split; [vm_compute; reflexivity|].
  split; [reflexivity|]. split; [reflexivity|].
  eapply (C4_timeout_abandons_wait 1000000000 context_Background 0
            [Cancel Canceled; Main CaseRec; Main CaseRec; Main CaseRec;
             Go 0%nat; Main CaseRec; Tick 1000000000; Main CaseTimer;
             WaitReturns 0%nat None]).
  vm_compute. reflexivity.
Defined.

(** C4 as the claim words it does not hold: which case the [select] takes
    is decided when it chooses, not when the timer fires.  Below the timer
    of the call is due, and nothing is delivered yet ([wait] has not even
    returned); before the caller is scheduled [wait] returns nil and the
    goroutine delivers it; the caller then finds both cases ready, takes
    the case of [rec], and returns nil, not [ErrWaitDeadlineExceeded]. *)
Lemma C4_timer_first_result_returned :
  ∃ st1 st2,
    run 1000000000
      [Cancel Canceled; Main CaseRec; Main CaseRec; Main CaseRec;
       Main CaseRec; Go 0%nat; Tick 1000000000]
      (call context_Background 0) = Some st1 ∧
    st_pc st1 = W109s 1000000000 ∧
    timer_fired 1000000000 (st_now st1) = true ∧
    st_trace st1 = [EvSpawn; EvInvoke] ∧
    st_rec st1 = Some (Chan 1 []) ∧
    run 1000000000
      [WaitReturns 0%nat None; Go 0%nat; Main CaseRec] st1 = Some st2 ∧
    st_pc st2 = Wret None ∧
    st_trace st2 =
      [EvSpawn; EvInvoke; EvReturn None; EvDeliver None; EvRecv None].
Proof.
  eexists _, _. split; [vm_compute; reflexivity|].
  do 4 (split; [reflexivity|]). split; [vm_compute; reflexivity|].
  split; reflexivity.
Qed.

(** Before the [go] statement nothing has happened; after it either the
    goroutine is racing or the caller has received its result. *)
Lemma not_launched timeout st :
  inv timeout st → launched (st_pc st) = false →
  st_gos st = [] ∧ st_trace st = [].
Proof.
  unfold inv. destruct (st_pc st); try done; naive_solver.
Qed.

Lemma launched_cases timeout st :
  inv timeout st → launched (st_pc st) = true →
  (∃ m, racing (st_gos st) (st_rec st) (st_trace st) m ∧ spawns m = 0%nat) ∨
  (st_gos st = [Gexit] ∧
   ∃ r, st_trace st = [EvSpawn; EvInvoke; EvReturn r; EvDeliver r; EvRecv r]).
Proof.
  unfold inv. destruct (st_pc st) as [| | | |tm|ret]; try done; intros H _.
  - destruct H as (_ & ?). left. by exists [].
  - destruct H as (_ & _ & ?). left. by exists [].
  - destruct H as (_ & [[_ ?]|(? & _ & ?)]).
    + left. by exists [EvTimeout].
    + right. split; [done|]. by exists ret.
Qed.

Lemma invocations_snoc tr e :
  invocations (tr ++ [e]) =
  (invocations tr + match e with EvInvoke => 1 | _ => 0 end)%nat.
Proof.
  unfold invocations. rewrite List.filter_app, length_app. by destruct e.
Qed.

(** C5: [wait] is invoked at most once and at most one goroutine is
    started.  As long as the context is not done the call sits at line 103,
    blocked, having created no channel, started no goroutine and invoked
    nothing.  The caller itself never invokes [wait]: once it is past the
    [go] statement exactly one goroutine exists, whose first step is the
    one invocation. *)
Theorem C5_wait_invoked_once_after_cancel timeout ctx now sched st :
  run timeout sched (call ctx now) = Some st →
  (invocations (st_trace st) ≤ 1)%nat ∧
  (spawns (st_trace st) ≤ 1)%nat ∧
  (ctx_done (st_ctx st) = false →
   st_pc st = W103 ∧ st_rec st = None ∧ st_gos st = [] ∧ st_trace st = [] ∧
   ∀ pick, act timeout (Main pick) st = None) ∧
  (∀ pick st1,
     act timeout (Main pick) st = Some st1 →
     invocations (st_trace st1) = invocations (st_trace st)) ∧
  (launched (st_pc st) = true →
   spawns (st_trace st) = 1%nat ∧
   ∃ g, st_gos st = [g] ∧
        match g with
        | Gcall =>
            invocations (st_trace st) = 0%nat ∧
            ∃ st1, act timeout (Go 0%nat) st = Some st1 ∧
                   st_gos st1 = [Gwait] ∧
                   invocations (st_trace st1) = 1%nat
        | _ => invocations (st_trace st) = 1%nat
        end).
Proof.
  intros Hrun. apply wait_inv_run in Hrun.
  assert (launched (st_pc st) = true →
          spawns (st_trace st) = 1%nat ∧
          ∃ g, st_gos st = [g] ∧
               match g with
               | Gcall =>
                   invocations (st_trace st) = 0%nat ∧
                   ∃ st1, act timeout (Go 0%nat) st = Some st1 ∧
                          st_gos st1 = [Gwait] ∧
                          invocations (st_trace st1) = 1%nat
               | _ => invocations (st_trace st) = 1%nat
               end) as Hlaunched.
  { intros Hp.
    destruct (launched_cases _ _ Hrun Hp) as [(m & Hrace & Hm)|(Hg & r & Htr)].
    - destruct (racing_counts _ _ _ _ Hrace) as (g & buf & Hg & Hrec & Hs & Hcnt).
      split; [lia|]. exists g. split; [done|].
      destruct g; [| | |destruct Hcnt as [r Hcnt]];
        destruct Hcnt as (Hi & _); try done.
      split; [done|]. destruct st as [c n rec gos p tr]; simpl in *. subst gos.
      unfold goroutine; simpl. eexists. split; [done|].
      split; [done|]. simpl. rewrite invocations_snoc. lia.
    - rewrite Htr, Hg. split; [done|]. by exists Gexit. }
  split_and!; [| | | |done].
  - destruct (launched (st_pc st)) eqn:Hp.
    + destruct (Hlaunched eq_refl) as (_ & g & _ & Hg).
      destruct g; lia.
    + destruct (not_launched _ _ Hrun Hp) as [_ ->]. cbv. lia.
  - destruct (launched (st_pc st)) eqn:Hp.
    + destruct (Hlaunched eq_refl) as (-> & _). lia.
    + destruct (not_launched _ _ Hrun Hp) as [_ ->]. cbv. lia.
  - intros Hd. unfold inv in Hrun. unfold act, WaitWithTimeout.
    destruct st as [c n rec gos p tr]; simpl in *.
    destruct p as [| | | |tm|ret];
      try (destruct Hrun as [Hrun _]; congruence).
    destruct Hrun as (-> & -> & ->). split_and!; try done.
    intros pick. by rewrite Hd.
  - intros pick st1. unfold act, WaitWithTimeout.
    destruct st as [c n rec gos p tr]; simpl.
    destruct p as [| | | |tm|ret]; simpl; try (by intros [= <-]).
    + destruct (ctx_done c); [|done]. by intros [= <-].
    + intros [= <-]; simpl. rewrite invocations_snoc. lia.
    + destruct pick.
      * destruct (rec ≫= chan_recv) as [[err ch]|]; [|done].
        intros [= <-]; simpl. rewrite invocations_snoc. lia.
      * destruct (timer_fired tm n); [|done].
        intros [= <-]; simpl. rewrite invocations_snoc. lia.
Qed.

Lemma C5_wait_invoked_once_after_cancel_witness :
  ∃ st,
    run 1000000000
      [Tick 5; Cancel DeadlineExceeded; Main CaseRec; Main CaseRec;
       Main CaseRec; Main CaseRec]
      (call context_Background 0) = Some st ∧
    st_gos st = [Gcall] ∧
    (invocations (st_trace st) ≤ 1)%nat ∧
    (spawns (st_trace st) ≤ 1)%nat ∧
    (ctx_done (st_ctx st) = false →
     st_pc st = W103 ∧ st_rec st = None ∧ st_gos st = [] ∧ st_trace st = [] ∧
     ∀ pick, act 1000000000 (Main pick) st = None) ∧
    (∀ pick st1,
       act 1000000000 (Main pick) st = Some st1 →
       invocations (st_trace st1) = invocations (st_trace st)) ∧
    (launched (st_pc st) = true →
     spawns (st_trace st) = 1%nat ∧
     ∃ g, st_gos st = [g] ∧
          match g with
          | Gcall =>
              invocations (st_trace st) = 0%nat ∧
              ∃ st1, act 1000000000 (Go 0%nat) st = Some st1 ∧
                     st_gos st1 = [Gwait] ∧
                     invocations (st_trace st1) = 1%nat
          | _ => invocations (st_trace st) = 1%nat
          end).
Proof.
  eexists. split; [vm_compute; reflexivity|]. split; [reflexivity|].
  eapply (C5_wait_invoked_once_after_cancel 1000000000 context_Background 0
            [Tick 5; Cancel DeadlineExceeded; Main CaseRec; Main CaseRec;
             Main CaseRec; Main CaseRec]).
  vm_compute. reflexivity.
Defined.

(** With a timeout that is zero or negative and a context that is done, the
    caller run on its own returns within the steps it has left. *)
Lemma nonpositive_timeout_returns timeout st :
  timeout ≤ 0 → inv timeout st → ctx_done (st_ctx st) = true →
  ∃ st1 ret,
    run timeout (replicate (remaining (st_pc st)) (Main CaseTimer)) st = Some st1 ∧
    st_pc st1 = Wret ret.
Proof.
  intros Ht Hinv Hd. destruct st as [c n rec gos p tr]; simpl in *.
  unfold inv in Hinv; simpl in Hinv.
  destruct p as [| | | |tm|ret]; simpl; rewrite ?Hd; simpl.
  1-4: rewrite when_nonpositive by done.
  1-4: unfold timer_fired; rewrite bool_decide_eq_true_2 by lia.
  1-4: by eexists _, _.
  - destruct Hinv as (_ & Htm & _). unfold timer_fired.
    rewrite bool_decide_eq_true_2 by (apply Htm; lia). by eexists _, _.
  - by eexists _, _.
Qed.

(** C10: with a timeout that is zero or negative, once the context is done
    the caller cannot hang.  The timer has fired as soon as it exists, so
    until the caller has returned it always has a step, every step brings
    the return one step closer, and left to run it returns.  At the
    [select] the case of the timer returns [ErrWaitDeadlineExceeded], and
    the case of [rec] can only be taken when the result of [wait] is
    already in [rec], which it then returns. *)
Theorem C10_nonpositive_timeout_terminates timeout ctx now sched st :
  timeout ≤ 0 →
  run timeout sched (call ctx now) = Some st →
  ctx_done (st_ctx st) = true →
  (∀ tm, st_pc st = W109s tm → timer_fired tm (st_now st) = true) ∧
  ((∀ ret, st_pc st ≠ Wret ret) →
   is_Some (act timeout (Main CaseTimer) st)) ∧
  (∀ pick st1,
     act timeout (Main pick) st = Some st1 →
     S (remaining (st_pc st1)) = remaining (st_pc st)) ∧
  (∃ st1 ret,
     run timeout (replicate (remaining (st_pc st)) (Main CaseTimer)) st
       = Some st1 ∧
     st_pc st1 = Wret ret) ∧
  (∀ tm pick st1,
     st_pc st = W109s tm → act timeout (Main pick) st = Some st1 →
     match pick with
     | CaseTimer => st_pc st1 = Wret (Some ErrWaitDeadlineExceeded)
     | CaseRec =>
         ∃ r, st_rec st = Some (Chan 1 [r]) ∧
              returned (st_trace st) = [r] ∧ st_pc st1 = Wret r
     end) ∧
  (∀ ret,
     st_pc st = Wret ret →
     ret = Some ErrWaitDeadlineExceeded ∨ returned (st_trace st) = [ret]).
Proof.
  intros Ht Hrun Hd. apply wait_inv_run in Hrun.
  assert (∀ tm, st_pc st = W109s tm → timer_fired tm (st_now st) = true) as Hf.
  { intros tm Hpc. unfold inv in Hrun. rewrite Hpc in Hrun.
    destruct Hrun as (_ & Htm & _). unfold timer_fired.
    apply bool_decide_eq_true_2. by apply Htm. }
  split_and!.
  - done.
  - intros Hnr. unfold act, WaitWithTimeout.
    destruct st as [c n rec gos p tr]; simpl in *.
    destruct p as [| | | |tm|ret]; simpl; rewrite ?Hd; try by eexists.
    + rewrite (Hf tm eq_refl). by eexists.
    + by destruct (Hnr ret).
  - intros pick st1. unfold act, WaitWithTimeout.
    destruct st as [c n rec gos p tr]; simpl.
    destruct p as [| | | |tm|ret]; simpl; try (by intros [= <-]).
    + destruct (ctx_done c); [|done]. by intros [= <-].
    + destruct pick.
      * destruct (rec ≫= chan_recv) as [[err ch]|]; [|done]. by intros [= <-].
      * destruct (timer_fired tm n); [|done]. by intros [= <-].
  - by apply nonpositive_timeout_returns.
  - intros tm pick st1 Hpc. unfold inv in Hrun. rewrite Hpc in Hrun.
    destruct Hrun as (_ & _ & Hrace).
    destruct (racing_counts _ _ _ _ Hrace) as (g & buf & Hg & Hrec & _ & Hcnt).
    unfold act, WaitWithTimeout.
    destruct st as [c n rec gos p tr]; simpl in *. subst p rec.
    destruct pick; simpl.
    + unfold chan_recv; simpl. destruct buf as [|r buf]; [done|].
      intros [= <-]; simpl.
      destruct g as [| |r'|]; try (by destruct Hcnt as (_ & _ & ? & _)).
      destruct Hcnt as (r' & _ & ? & [= -> ->] & _). by exists r'.
    + destruct (timer_fired tm n); [|done]. by intros [= <-].
  - intros ret Hpc. unfold inv in Hrun. rewrite Hpc in Hrun.
    destruct Hrun as (_ & [[-> _]|(_ & _ & ->)]); [by left|by right].
Qed.

Lemma C10_nonpositive_timeout_terminates_witness :
  ∃ st,
    -5 ≤ 0 ∧
    run (-5)
      [Cancel Canceled; Main CaseRec; Main CaseRec; Main CaseRec;
       Main CaseRec; Go 0%nat; WaitReturns 0%nat None; Go 0%nat]
      (call context_Background 42) = Some st ∧
    ctx_done (st_ctx st) = true ∧
    st_pc st = W109s 42 ∧
    (∀ tm, st_pc st = W109s tm → timer_fired tm (st_now st) = true) ∧
    ((∀ ret, st_pc st ≠ Wret ret) →
     is_Some (act (-5) (Main CaseTimer) st)) ∧
    (∀ pick st1,
       act (-5) (Main pick) st = Some st1 →
       S (remaining (st_pc st1)) = remaining (st_pc st)) ∧
    (∃ st1 ret,
       run (-5) (replicate (remaining (st_pc st)) (Main CaseTimer)) st
         = Some st1 ∧
       st_pc st1 = Wret ret) ∧
    (∀ tm pick st1,
       st_pc st = W109s tm → act (-5) (Main pick) st = Some st1 →
       match pick with
       | CaseTimer => st_pc st1 = Wret (Some ErrWaitDeadlineExceeded)
       | CaseRec =>
           ∃ r, st_rec st = Some (Chan 1 [r]) ∧
                returned (st_trace st) = [r] ∧ st_pc st1 = Wret r
       end) ∧
    (∀ ret,
       st_pc st = Wret ret →
       ret = Some ErrWaitDeadlineExceeded ∨ returned (st_trace st) = [ret]).
Proof.
  eexists. split; [lia|].
  split; [vm_compute; reflexivity|].
  split; [reflexivity|]. split; [reflexivity|].
  eapply (C10_nonpositive_timeout_terminates (-5) context_Background 42
            [Cancel Canceled; Main CaseRec; Main CaseRec; Main CaseRec;
             Main CaseRec; Go 0%nat; WaitReturns 0%nat None; Go 0%nat]).
  - lia.
  - vm_compute. reflexivity.
  - reflexivity.
Defined.

End WaitProofs.

(** * ListenForQuitSignal: further properties *)

Module ListenMore.
Import Listen ListenProofs.

(** Where things come from: a context that is done was done at the call or
    was cancelled since; a signal in the queue of the call's channel, or
    received by the call, was delivered since the call. *)
Lemma provenance w0 sig sched st :
  run sched (call w0 sig) = Some st →
  (ctx_done (w_ctx (st_world st)) = true →
   ctx_done (w_ctx w0) = true ∨ ∃ r, Cancel r ∈ sched) ∧
  (∀ c ch s,
     st_pc st = L51 c ∨ st_pc st = L53 c →
     w_chans (st_world st) !! c = Some ch → s ∈ ch_buf ch →
     Deliver s ∈ sched) ∧
  (∀ s, EvRecv s ∈ st_trace st → Deliver s ∈ sched).
Proof.
  revert st. induction sched as [|a sched IH] using rev_ind; intros st.
  { intros [= <-]; simpl. split_and!; [by left| |set_solver].
    intros c ch s [?|?]; done. }
  rewrite listen_run_snoc.
  destruct (run sched (call w0 sig)) as [st1|] eqn:Hrun1; [|done]. simpl.
  destruct (IH st1 eq_refl) as (IHc & IHq & IHt).
  pose proof (listen_inv_run _ _ _ _ Hrun1) as Hinv.
  unfold act. destruct (w_alive (st_world st1)); [|done].
  destruct st1 as [w p tr]; simpl in *.
  destruct a as [r|s0|pick].
  - intros [= <-]; simpl. split_and!.
    + intros _. right. exists r. set_solver.
    + intros c ch s Hpc Hch Hs. specialize (IHq c ch s Hpc Hch Hs). set_solver.
    + intros s Hs. specialize (IHt s Hs). set_solver.
  - intros [= <-]; simpl. rewrite world_signal_ctx. split_and!.
    + intros Hd. destruct (IHc Hd) as [?|[r ?]]; [by left|right].
      exists r. set_solver.
    + intros c ch s Hpc Hch Hs.
      assert (registered w0 (effective sig) w c) as (_ & _ & buf & Hb & Hlen & _).
      { unfold inv in Hinv; simpl in Hinv.
        by destruct Hpc as [-> | ->]; destruct Hinv. }
      unfold world_signal in Hch. destruct (uncatchable s0); simpl in Hch.
      { specialize (IHq c ch s Hpc Hch Hs). set_solver. }
      rewrite signal_process_lookup, Hb in Hch. simpl in Hch.
      injection Hch as <-.
      assert (s ∈ buf ∨ s = s0) as [Hin| ->]; [|
        specialize (IHq c _ s Hpc Hb Hin); set_solver | set_solver].
      case_bool_decide; [by left|].
      destruct (want _ _ _); [|by left].
      destruct buf as [|x [|y buf]]; simpl in Hlen; [| |lia].
      * right. set_solver.
      * by left.
    + intros s Hs. specialize (IHt s Hs). set_solver.
  - assert (ctx_done (w_ctx w) = true →
            ctx_done (w_ctx w0) = true ∨
            ∃ r, Cancel r ∈ sched ++ [Step pick]) as Hc'.
    { intros Hd. destruct (IHc Hd) as [?|[r ?]]; [by left|right].
      exists r. set_solver. }
    assert (∀ s, EvRecv s ∈ tr → Deliver s ∈ sched ++ [Step pick]) as Ht'.
    { intros s Hs. specialize (IHt s Hs). set_solver. }
    unfold ListenForQuitSignal; simpl.
    destruct p as [sg|sg|c sg|c|c|c ret|ret]; simpl.
    + intros [= <-]; simpl. split_and!; [done| |done].
      by intros c ch s [?|?].
    + intros [= <-]; simpl. split_and!; [done| |done].
      by intros c ch s [?|?].
    + intros [= <-]; simpl. split_and!; [done| |].
      * intros c' ch s [[= <-]|?]; [|done]. intros Hch Hs.
        unfold inv in Hinv; simpl in Hinv.
        destruct Hinv as (_ & _ & _ & Hq & _). rewrite Hq in Hch.
        injection Hch as <-. set_solver.
      * intros s Hs. apply Ht'. set_solver.
    + intros [= <-]; simpl. split_and!; [done| |done].
      intros c' ch s [?|[= <-]]; [done|]. intros Hch Hs.
      specialize (IHq c ch s (or_introl eq_refl) Hch Hs). set_solver.
    + destruct pick.
      * destruct (ctx_done (w_ctx w)) eqn:Hd; [|done]. intros [= <-]; simpl.
        split_and!; [intros _; by apply Hc'| |].
        -- by intros c' ch s [?|?].
        -- intros s Hs. apply Ht'. set_solver.
      * destruct (w_chans w !! c) as [ch|] eqn:Hch; [|done]. simpl.
        unfold chan_recv. destruct (ch_buf ch) as [|s0 rest] eqn:Hbuf; [done|].
        intros [= <-]; simpl. split_and!; [done| |].
        -- by intros c' ch' s [?|?].
        -- intros s Hs.
           assert (EvRecv s ∈ tr ∨ s = s0) as [Hin| ->] by set_solver;
             [by apply Ht'|].
           assert (Deliver s0 ∈ sched); [|set_solver].
           apply (IHq c ch s0); [by right|done|]. rewrite Hbuf. set_solver.
    + intros [= <-]; simpl. split_and!; [done| |].
      * by intros c' ch s [?|?].
      * intros s Hs. apply Ht'. set_solver.
    + done.
Qed.

Lemma world_signal_chans_is_Some s w c :
  is_Some (w_chans (world_signal s w) !! c) ↔ is_Some (w_chans w !! c).
Proof.
  unfold world_signal. destruct (uncatchable s); simpl; [done|].
  rewrite signal_process_lookup. apply fmap_is_Some.
Qed.

(** The channel of the call is none of the channels that existed before. *)
Lemma own_channel_new w0 sig sched st :
  run sched (call w0 sig) = Some st →
  match st_pc st with
  | L45 _ | L49 _ =>
      ∀ c', is_Some (w_chans (st_world st) !! c') ↔ is_Some (w_chans w0 !! c')
  | L50 c _ | L51 c | L53 c | Ldefer c _ => w_chans w0 !! c = None
  | Lret _ => True
  end.
Proof.
  revert st. induction sched as [|a sched IH] using rev_ind; intros st.
  { by intros [= <-]. }
  rewrite listen_run_snoc.
  destruct (run sched (call w0 sig)) as [st1|] eqn:Hrun1; [|done]. simpl.
  specialize (IH st1 eq_refl).
  unfold act. destruct (w_alive (st_world st1)); [|done].
  destruct st1 as [w p tr]; simpl in *.
  destruct a as [r|s0|pick].
  - intros [= <-]; simpl. done.
  - intros [= <-]; simpl.
    destruct p; try done; intros c'; by rewrite world_signal_chans_is_Some.
  - unfold ListenForQuitSignal; simpl.
    destruct p as [sg|sg|c sg|c|c|c ret|ret]; simpl;
      try (by intros [= <-]).
    + intros [= <-]; simpl.
      pose proof (is_fresh (dom (w_chans w) ∪ dom (w_handlers w))) as Hf.
      apply eq_None_not_Some. rewrite <-IH, <-elem_of_dom. set_solver.
    + destruct pick.
      * destruct (ctx_done (w_ctx w)); [|done]. by intros [= <-].
      * destruct (w_chans w !! c ≫= chan_recv) as [[? ?]|]; [|done].
        by intros [= <-].
Qed.

Lemma returned_cases w0 sig sched st ret :
  run sched (call w0 sig) = Some st → st_pc st = Lret ret →
  (ctx_done (w_ctx (st_world st)) = true ∧
   ret = ctx_Err (w_ctx (st_world st)) ∧ EvDone ∈ st_trace st ∧
   ∀ s, EvRecv s ∉ st_trace st) ∨
  (∃ s p, s ∈ mask (effective sig) ∧ ret = Some (quit_error p s) ∧
          EvRecv s ∈ st_trace st).
Proof.
  intros Hrun Hpc.
  destruct (returned_chosen _ _ _ _ _ Hrun Hpc) as (c & tr & _ & _ & Hch & ->).
  destruct Hch as [(? & ? & ->)|(s & p & ? & _ & ? & ->)].
  - left. split_and!; [done..|set_solver|set_solver].
  - right. exists s, p. split_and!; [done..|set_solver].
Qed.

Lemma mask_explicit sig n :
  sig ≠ [] → n ∈ mask (effective sig) ↔ n ∈ sig ∧ 0 ≤ n < numSig.
Proof.
  intros Hsig. unfold effective.
  rewrite bool_decide_eq_false_2 by (by destruct sig).
  rewrite elem_of_mask. unfold signum. split.
  - intros (s & Hs & Hn & H0). case_bool_decide; [|lia]. by subst.
  - intros [Hn Hr]. exists n. rewrite bool_decide_eq_true_2 by done.
    split_and!; [done..|lia].
Qed.

Lemma string_length_app a b :
  String.length (a +:+ b) = (String.length a + String.length b)%nat.
Proof. induction a as [|ch a IH]; simpl; [done|]. by rewrite IH. Qed.

(** X1: with a list that is not empty the call registers its channel for
    exactly the listed signals whose number is in range, the defaults are
    not added, and a signal that is not listed leaves the queue as it is. *)
Theorem explicit_signals_exact w0 sig sched st c :
  sig ≠ [] →
  run sched (call w0 sig) = Some st →
  st_pc st = L53 c →
  ∃ h, w_handlers (st_world st) !! c = Some h ∧
       (∀ n, n ∈ h ↔ n ∈ sig ∧ 0 ≤ n < numSig) ∧
       ∀ s st1,
         s ∉ sig → act (Deliver s) st = Some st1 →
         queue (st_world st1) c = queue (st_world st) c.
Proof.
  intros Hsig Hrun Hpc.
  pose proof (subscribed_registered _ _ _ _ c Hrun (or_intror Hpc)) as Hreg.
  exists (mask (effective sig)). split_and!.
  - destruct Hreg as (_ & -> & _). by rewrite lookup_insert_eq.
  - intros n. by apply mask_explicit.
  - intros s st1 Hs. unfold act.
    destruct (w_alive (st_world st)); [|done]. intros [= <-]; simpl.
    unfold queue. f_equal. eapply deliver_unsubscribed; [done|].
    rewrite mask_explicit by done. tauto.
Qed.

Lemma explicit_signals_exact_witness :
  ∃ st,
    [SIGQUIT] ≠ [] ∧
    run [Step CaseSig; Step CaseSig; Step CaseSig; Step CaseSig]
        (call boot [SIGQUIT]) = Some st ∧
    st_pc st = L53 1 ∧
    ∃ h, w_handlers (st_world st) !! 1%positive = Some h ∧
         (∀ n, n ∈ h ↔ n ∈ [SIGQUIT] ∧ 0 ≤ n < numSig) ∧
         ∀ s st1,
           s ∉ [SIGQUIT] → act (Deliver s) st = Some st1 →
           queue (st_world st1) 1 = queue (st_world st) 1.
Proof.
  eexists. split; [done|]. split; [vm_compute; reflexivity|].
  split; [reflexivity|].
  eapply (explicit_signals_exact boot [SIGQUIT]
            [Step CaseSig; Step CaseSig; Step CaseSig; Step CaseSig]).
  - done.
  - vm_compute. reflexivity.
  - reflexivity.
Defined.

(** X2: at every moment of a call the signal table holds whatever was
    registered before, unchanged, plus at most the call's own new channel,
    and no step of the call touches a channel that existed before it. *)
Theorem others_untouched w0 sig sched st :
  run sched (call w0 sig) = Some st →
  (w_handlers (st_world st) = w_handlers w0 ∨
   ∃ c, w_handlers w0 !! c = None ∧ w_chans w0 !! c = None ∧
        w_handlers (st_world st)
          = <[c := mask (effective sig)]> (w_handlers w0)) ∧
  (∀ c' h, w_handlers w0 !! c' = Some h →
           w_handlers (st_world st) !! c' = Some h) ∧
  (∀ pick st1 c',
     act (Step pick) st = Some st1 → is_Some (w_chans w0 !! c') →
     w_chans (st_world st1) !! c' = w_chans (st_world st) !! c').
Proof.
  intros Hrun.
  pose proof (listen_inv_run _ _ _ _ Hrun) as Hinv.
  pose proof (own_channel_new _ _ _ _ Hrun) as Hown.
  assert (w_handlers (st_world st) = w_handlers w0 ∨
          ∃ c, w_handlers w0 !! c = None ∧ w_chans w0 !! c = None ∧
               w_handlers (st_world st)
                 = <[c := mask (effective sig)]> (w_handlers w0)) as Hh.
  { unfold inv in Hinv.
    destruct (st_pc st) as [sg|sg|c sg|c|c|c ret|ret].
    - left. by destruct Hinv as (_ & ? & _).
    - left. by destruct Hinv as (_ & ? & _).
    - left. by destruct Hinv as (_ & ? & _).
    - right. exists c. by destruct Hinv as ((? & ? & _) & _).
    - right. exists c. by destruct Hinv as ((? & ? & _) & _).
    - right. exists c. by destruct Hinv as ((? & ? & _) & _).
    - left. by destruct Hinv as (c & tr & _ & ? & _). }
  split_and!; [done| |].
  - intros c' h Hc'. destruct Hh as [-> |(c & Hc & _ & ->)]; [done|].
    rewrite lookup_insert_ne; [done|congruence].
  - intros pick st1 c'. unfold act, ListenForQuitSignal.
    destruct (w_alive (st_world st)); [|done].
    destruct st as [w p tr]; simpl in *.
    destruct p as [sg|sg|c sg|c|c|c ret|ret]; simpl;
      try (by intros [= <-]).
    + intros [= <-] Hc'; simpl. apply lookup_insert_ne.
      pose proof (is_fresh (dom (w_chans w) ∪ dom (w_handlers w))) as Hf.
      intros <-. apply Hown, elem_of_dom in Hc'. set_solver.
    + destruct pick.
      * destruct (ctx_done (w_ctx w)); [|done]. by intros [= <-].
      * destruct (w_chans w !! c ≫= chan_recv) as [[? ?]|]; [|done].
        intros [= <-] [x Hc']; simpl. apply lookup_insert_ne. congruence.
Qed.

Lemma others_untouched_witness :
  ∃ w0 st,
    w0 = World context_Background {[5%positive := {[SIGQUIT]}]}
           {[5%positive := Chan 1 []]} first_heap_ptr true ∧
    run [Step CaseSig; Step CaseSig; Step CaseSig; Deliver SIGQUIT;
         Step CaseSig] (call w0 []) = Some st ∧
    (w_handlers (st_world st) = w_handlers w0 ∨
     ∃ c, w_handlers w0 !! c = None ∧ w_chans w0 !! c = None ∧
          w_handlers (st_world st)
            = <[c := mask (effective [])]> (w_handlers w0)) ∧
    (∀ c' h, w_handlers w0 !! c' = Some h →
             w_handlers (st_world st) !! c' = Some h) ∧
    (∀ pick st1 c',
       act (Step pick) st = Some st1 → is_Some (w_chans w0 !! c') →
       w_chans (st_world st1) !! c' = w_chans (st_world st) !! c').
Proof.
  eexists _, _. split; [reflexivity|]. split; [vm_compute; reflexivity|].
  eapply (others_untouched _ []
            [Step CaseSig; Step CaseSig; Step CaseSig; Deliver SIGQUIT;
             Step CaseSig]).
  vm_compute. reflexivity.
Defined.

(** X3: when no subscribed signal is delivered during the call, a call
    that returns returns [ctx.Err()] of a context that is done, and that
    context was done at the call or was cancelled during it. *)
Theorem no_signal_returns_ctx_err w0 sig sched st ret :
  (∀ s, Deliver s ∈ sched → s ∉ mask (effective sig)) →
  run sched (call w0 sig) = Some st →
  st_pc st = Lret ret →
  ret = ctx_Err (w_ctx (st_world st)) ∧
  ctx_done (w_ctx (st_world st)) = true ∧
  EvDone ∈ st_trace st ∧
  (ctx_done (w_ctx w0) = true ∨ ∃ r, Cancel r ∈ sched).
Proof.
  intros Hno Hrun Hpc.
  destruct (provenance _ _ _ _ Hrun) as (Hc & _ & Ht).
  destruct (returned_cases _ _ _ _ _ Hrun Hpc)
    as [(Hd & -> & ? & _)|(s & p & Hs & _ & Hr)].
  - split_and!; try done. by apply Hc.
  - by destruct (Hno s (Ht s Hr)).
Qed.

Lemma no_signal_returns_ctx_err_witness :
  ∃ st ret,
    (∀ s, Deliver s ∈ [Step CaseDone; Step CaseDone; Deliver SIGQUIT;
                       Step CaseDone; Step CaseDone; Cancel DeadlineExceeded;
                       Step CaseDone; Step CaseDone] →
          s ∉ mask (effective [])) ∧
    run [Step CaseDone; Step CaseDone; Deliver SIGQUIT; Step CaseDone;
         Step CaseDone; Cancel DeadlineExceeded; Step CaseDone;
         Step CaseDone] (call boot []) = Some st ∧
    st_pc st = Lret ret ∧
    ret = Some context_DeadlineExceeded ∧
    ret = ctx_Err (w_ctx (st_world st)) ∧
    ctx_done (w_ctx (st_world st)) = true ∧
    EvDone ∈ st_trace st ∧
    (ctx_done (w_ctx boot) = true ∨
     ∃ r, Cancel r ∈ [Step CaseDone; Step CaseDone; Deliver SIGQUIT;
                      Step CaseDone; Step CaseDone; Cancel DeadlineExceeded;
                      Step CaseDone; Step CaseDone]).
Proof.
  assert (∀ s, Deliver s ∈ [Step CaseDone; Step CaseDone; Deliver SIGQUIT;
                            Step CaseDone; Step CaseDone;
                            Cancel DeadlineExceeded; Step CaseDone;
                            Step CaseDone] →
               s ∉ mask (effective [])) as Hno.
  { intros s Hs. assert (s = SIGQUIT) as -> by set_solver.
    rewrite mask_default_pair. unfold default_pair. set_solver. }
  eexists _, _. split; [exact Hno|]. split; [vm_compute; reflexivity|].
  split; [reflexivity|]. split; [reflexivity|].
  eapply (no_signal_returns_ctx_err boot []).
  - exact Hno.
  - vm_compute. reflexivity.
  - reflexivity.
Defined.

(** X4: when the context is not done at the call and is not cancelled
    during it, a call that returns returns the quit-signal error of a
    subscribed signal that was delivered during the call: its message
    starts with the name of that signal (the name of the linux table for
    the signals 1 to 31, "signal" and the number otherwise) and it wraps
    [ErrReceivedQuitSignal]. *)
Theorem no_cancel_returns_quit_error w0 sig sched st ret :
  ctx_done (w_ctx w0) = false →
  (∀ r, Cancel r ∉ sched) →
  run sched (call w0 sig) = Some st →
  st_pc st = Lret ret →
  ∃ s e, Deliver s ∈ sched ∧ (s ∈ effective sig ∧ 0 ≤ s < numSig) ∧
         EvRecv s ∈ st_trace st ∧ ret = Some e ∧
         (∀ name, (s, name) ∈ linux_signal_names →
                  Error e = name +:+ ": received quit signal") ∧
         (s = 0 ∨ 32 ≤ s →
          Error e = "signal " +:+ pretty s +:+ ": received quit signal") ∧
         Unwrap e = Some ErrReceivedQuitSignal ∧
         errors_Is ret (Some ErrReceivedQuitSignal) = true.
Proof.
  intros Hd0 Hno Hrun Hpc.
  destruct (provenance _ _ _ _ Hrun) as (Hc & _ & Ht).
  destruct (returned_cases _ _ _ _ _ Hrun Hpc)
    as [(Hd & _)|(s & p & Hs & -> & Hr)].
  - destruct (Hc Hd) as [?|[r Hr]]; [congruence|by destruct (Hno r)].
  - apply elem_of_mask_range in Hs.
    exists s, (quit_error p s). split; [by apply Ht|]. split; [done|].
    split_and!; try done.
    + intros name Hn. simpl. by rewrite (Signal_String_named _ _ Hn).
    + intros Hn. simpl. rewrite Signal_String_unnamed; [done|lia].
Qed.

Lemma no_cancel_returns_quit_error_witness :
  ∃ st ret,
    ctx_done (w_ctx boot) = false ∧
    (∀ r, Cancel r ∉ [Step CaseSig; Step CaseSig; Step CaseSig;
                      Step CaseSig; Deliver SIGTERM; Step CaseSig;
                      Step CaseSig]) ∧
    run [Step CaseSig; Step CaseSig; Step CaseSig; Step CaseSig;
         Deliver SIGTERM; Step CaseSig; Step CaseSig] (call boot [])
      = Some st ∧
    st_pc st = Lret ret ∧
    ret = Some (wrapError 4 "terminated: received quit signal"
                  ErrReceivedQuitSignal) ∧
    ∃ s e, Deliver s ∈ [Step CaseSig; Step CaseSig; Step CaseSig;
                        Step CaseSig; Deliver SIGTERM; Step CaseSig;
                        Step CaseSig] ∧
           (s ∈ effective [] ∧ 0 ≤ s < numSig) ∧
           EvRecv s ∈ st_trace st ∧ ret = Some e ∧
           (∀ name, (s, name) ∈ linux_signal_names →
                    Error e = name +:+ ": received quit signal") ∧
           (s = 0 ∨ 32 ≤ s →
            Error e = "signal " +:+ pretty s +:+ ": received quit signal") ∧
           Unwrap e = Some ErrReceivedQuitSignal ∧
           errors_Is ret (Some ErrReceivedQuitSignal) = true.
Proof.
  assert (∀ r, Cancel r ∉ [Step CaseSig; Step CaseSig; Step CaseSig;
                           Step CaseSig; Deliver SIGTERM; Step CaseSig;
                           Step CaseSig]) as Hno by set_solver.
  eexists _, _. split; [reflexivity|]. split; [exact Hno|].
  split; [vm_compute; reflexivity|]. split; [reflexivity|].
  split; [reflexivity|].
  eapply (no_cancel_returns_quit_error boot []).
  - reflexivity.
  - exact Hno.
  - vm_compute. reflexivity.
  - reflexivity.
Defined.

(** X5: when the context is not done at the call, is not cancelled, and no
    subscribed signal is delivered, the call does not return: its [select]
    never chooses, and once it is in the [select] it has no step at all. *)
Theorem blocks_without_event w0 sig sched st :
  ctx_done (w_ctx w0) = false →
  (∀ r, Cancel r ∉ sched) →
  (∀ s, Deliver s ∈ sched → s ∉ mask (effective sig)) →
  run sched (call w0 sig) = Some st →
  undecided (st_pc st) = true ∧
  ∀ c, st_pc st = L53 c →
       queue (st_world st) c = Some [] ∧
       ∀ pick, act (Step pick) st = None.
Proof.
  intros Hd0 Hnc Hns Hrun.
  destruct (provenance _ _ _ _ Hrun) as (Hc & Hq & Ht).
  pose proof (listen_inv_run _ _ _ _ Hrun) as Hinv.
  assert (ctx_done (w_ctx (st_world st)) = false) as Hd.
  { destruct (ctx_done (w_ctx (st_world st))) eqn:E; [|done].
    destruct (Hc eq_refl) as [?|[r Hr]]; [congruence|by destruct (Hnc r)]. }
  split.
  - unfold inv in Hinv. destruct (st_pc st) as [sg|sg|c sg|c|c|c ret|ret];
      try done.
    + destruct Hinv as (_ & [(? & _)|(s & p & Hs & _ & _ & Htr)]);
        [congruence|].
      destruct (Hns s); [apply Ht; rewrite Htr; set_solver|done].
    + destruct Hinv as (c & tr & _ & _ & [(? & _)|(s & p & Hs & _ & _ & ->)] & Htr);
        [congruence|].
      destruct (Hns s); [apply Ht; rewrite Htr; set_solver|done].
  - intros c Hpc.
    destruct (subscribed_registered _ _ _ _ c Hrun (or_intror Hpc))
      as (_ & _ & buf & Hch & _ & Hbuf).
    assert (buf = []) as ->.
    { destruct buf as [|s buf]; [done|].
      destruct (Hns s).
      - apply (Hq c _ s (or_intror Hpc) Hch). simpl. set_solver.
      - apply Hbuf. set_solver. }
    split; [unfold queue; by rewrite Hch|].
    intros pick. unfold act, ListenForQuitSignal.
    destruct (w_alive (st_world st)); [|done].
    rewrite Hpc. destruct pick; [by rewrite Hd|]. by rewrite Hch.
Qed.

Lemma blocks_without_event_witness :
  ∃ st,
    ctx_done (w_ctx boot) = false ∧
    (∀ r, Cancel r ∉ [Step CaseSig; Step CaseSig; Step CaseSig;
                      Step CaseSig; Deliver SIGQUIT]) ∧
    (∀ s, Deliver s ∈ [Step CaseSig; Step CaseSig; Step CaseSig;
                       Step CaseSig; Deliver SIGQUIT] →
          s ∉ mask (effective [])) ∧
    run [Step CaseSig; Step CaseSig; Step CaseSig; Step CaseSig;
         Deliver SIGQUIT] (call boot []) = Some st ∧
    st_pc st = L53 1 ∧
    undecided (st_pc st) = true ∧
    ∀ c, st_pc st = L53 c →
         queue (st_world st) c = Some [] ∧
         ∀ pick, act (Step pick) st = None.
Proof.
  assert (∀ r, Cancel r ∉ [Step CaseSig; Step CaseSig; Step CaseSig;
                           Step CaseSig; Deliver SIGQUIT]) as Hnc
    by set_solver.
  assert (∀ s, Deliver s ∈ [Step CaseSig; Step CaseSig; Step CaseSig;
                            Step CaseSig; Deliver SIGQUIT] →
               s ∉ mask (effective [])) as Hns.
  { intros s Hs. assert (s = SIGQUIT) as -> by set_solver.
    rewrite mask_default_pair. unfold default_pair. set_solver. }
  eexists. split; [reflexivity|]. split; [exact Hnc|]. split; [exact Hns|].
  split; [vm_compute; reflexivity|]. split; [reflexivity|].
  eapply (blocks_without_event boot []).
  - reflexivity.
  - exact Hnc.
  - exact Hns.
  - vm_compute. reflexivity.
Defined.

(** X6: a context that is done always lets the call finish.  Whatever its
    program point, the call (in a live process) can take a step until it has
    returned, every step brings the return one step closer, and run on its
    own it returns within the steps it has left; if its [select] had not
    chosen yet, what it then returns is [ctx.Err()]. *)
Theorem done_context_unblocks w0 sig sched st :
  run sched (call w0 sig) = Some st →
  w_alive (st_world st) = true →
  ctx_done (w_ctx (st_world st)) = true →
  ((∀ ret, st_pc st ≠ Lret ret) → is_Some (act (Step CaseDone) st)) ∧
  (∀ pick st1,
     act (Step pick) st = Some st1 →
     S (remaining (st_pc st1)) = remaining (st_pc st)) ∧
  ∃ st' ret,
    run (replicate (remaining (st_pc st)) (Step CaseDone)) st = Some st' ∧
    st_pc st' = Lret ret ∧
    (undecided (st_pc st) = true → ret = ctx_Err (w_ctx (st_world st))).
Proof.
  intros _ Hal Hd. destruct st as [w p tr]; simpl in *.
  destruct w as [ctx hs chs hp al]; simpl in *. subst al.
  split_and!.
  - intros Hnr. unfold act, ListenForQuitSignal; simpl.
    destruct p as [sg|sg|c sg|c|c|c ret|ret]; simpl; rewrite ?Hd;
      try by eexists.
    by destruct (Hnr ret).
  - intros pick st1. unfold act, ListenForQuitSignal; simpl.
    destruct p as [sg|sg|c sg|c|c|c ret|ret]; simpl;
      try (by intros [= <-]).
    destruct pick.
    + rewrite Hd. by intros [= <-].
    + destruct (chs !! c ≫= chan_recv) as [[? ?]|]; [|done].
      by intros [= <-].
  - destruct p as [sg|sg|c sg|c|c|c ret|ret]; simpl;
      repeat (unfold act at 1, ListenForQuitSignal at 1; simpl;
              rewrite ?Hd; simpl);
      by eexists _, _.
Qed.

Lemma done_context_unblocks_witness :
  ∃ st,
    run [Cancel Canceled; Step CaseSig; Step CaseSig; Deliver SIGINT]
        (call boot [SIGINT]) = Some st ∧
    w_alive (st_world st) = true ∧
    ctx_done (w_ctx (st_world st)) = true ∧
    ((∀ ret, st_pc st ≠ Lret ret) → is_Some (act (Step CaseDone) st)) ∧
    (∀ pick st1,
       act (Step pick) st = Some st1 →
       S (remaining (st_pc st1)) = remaining (st_pc st)) ∧
    ∃ st' ret,
      run (replicate (remaining (st_pc st)) (Step CaseDone)) st = Some st' ∧
      st_pc st' = Lret ret ∧
      (undecided (st_pc st) = true → ret = ctx_Err (w_ctx (st_world st))).
Proof.
  eexists. split; [vm_compute; reflexivity|].
  split; [reflexivity|]. split; [reflexivity|].
  eapply (done_context_unblocks boot [SIGINT]
            [Cancel Canceled; Step CaseSig; Step CaseSig; Deliver SIGINT]).
  - vm_compute. reflexivity.
  - reflexivity.
  - reflexivity.
Defined.

(** X7: the error returned for a received signal is not the sentinel
    itself: [==] against [ErrReceivedQuitSignal] is false and the message
    differs from the sentinel's, so only [errors.Is] recognises it. *)
Theorem quit_error_is_not_the_sentinel w0 sig sched st ret s :
  run sched (call w0 sig) = Some st →
  st_pc st = Lret ret →
  EvRecv s ∈ st_trace st →
  ∃ e, ret = Some e ∧
       error_eqb e ErrReceivedQuitSignal = false ∧
       e ≠ ErrReceivedQuitSignal ∧
       Error e ≠ Error ErrReceivedQuitSignal ∧
       errors_Is ret (Some ErrReceivedQuitSignal) = true.
Proof.
  intros Hrun Hpc Hs.
  destruct (returned_cases _ _ _ _ _ Hrun Hpc)
    as [(_ & _ & _ & Hno)|(s' & p & _ & -> & _)]; [by destruct (Hno s)|].
  exists (quit_error p s'). split_and!; try done.
  intros Heq. apply (f_equal String.length) in Heq.
  unfold quit_error, fmt_Errorf_s_w in Heq. simpl in Heq.
  rewrite string_length_app in Heq. simpl in Heq. lia.
Qed.

Lemma quit_error_is_not_the_sentinel_witness :
  ∃ st ret,
    run [Step CaseSig; Step CaseSig; Step CaseSig; Step CaseSig;
         Deliver SIGINT; Step CaseSig; Step CaseSig] (call boot []) = Some st ∧
    st_pc st = Lret ret ∧
    EvRecv SIGINT ∈ st_trace st ∧
    ∃ e, ret = Some e ∧
         error_eqb e ErrReceivedQuitSignal = false ∧
         e ≠ ErrReceivedQuitSignal ∧
         Error e ≠ Error ErrReceivedQuitSignal ∧
         errors_Is ret (Some ErrReceivedQuitSignal) = true.
Proof.
  assert (EvRecv SIGINT ∈ [EvNotify 1 [2; 15]; EvRecv SIGINT; EvStop 1])
    as Hin by (right; left).
  eexists _, _. split; [vm_compute; reflexivity|].
  split; [reflexivity|]. split; [exact Hin|].
  eapply (quit_error_is_not_the_sentinel boot []
            [Step CaseSig; Step CaseSig; Step CaseSig; Step CaseSig;
             Deliver SIGINT; Step CaseSig; Step CaseSig]).
  - vm_compute. reflexivity.
  - reflexivity.
  - exact Hin.
Defined.

(** X8: signal numbers out of range are dropped from the list without any
    error.  When the list is not empty and none of its numbers is in range,
    the channel is registered for nothing, no signal is ever received, and
    a call that returns returns [ctx.Err()]. *)
Theorem out_of_range_signals_ignored w0 sig sched st :
  sig ≠ [] →
  (∀ s, s ∈ sig → ¬ (0 ≤ s < numSig)) →
  run sched (call w0 sig) = Some st →
  (∀ c, st_pc st = L53 c → w_handlers (st_world st) !! c = Some ∅) ∧
  (∀ s, EvRecv s ∉ st_trace st) ∧
  (∀ ret, st_pc st = Lret ret →
          ret = ctx_Err (w_ctx (st_world st)) ∧
          ctx_done (w_ctx (st_world st)) = true).
Proof.
  intros Hsig Hout Hrun.
  assert (mask (effective sig) = ∅) as Hm.
  { apply set_eq. intros n. rewrite mask_explicit by done.
    split; [|set_solver]. intros [Hn Hr]. by destruct (Hout n). }
  split_and!.
  - intros c Hpc.
    destruct (subscribed_registered _ _ _ _ c Hrun (or_intror Hpc))
      as (_ & -> & _).
    by rewrite lookup_insert_eq, Hm.
  - intros s Hs. apply (trace_received _ _ _ _ _ Hrun) in Hs.
    rewrite Hm in Hs. set_solver.
  - intros ret Hpc.
    destruct (returned_cases _ _ _ _ _ Hrun Hpc)
      as [(? & ? & _)|(s & p & Hs & _)]; [done|].
    rewrite Hm in Hs. set_solver.
Qed.

Lemma out_of_range_signals_ignored_witness :
  ∃ st,
    [100; -1] ≠ [] ∧
    (∀ s, s ∈ [100; -1] → ¬ (0 ≤ s < numSig)) ∧
    run [Step CaseSig; Step CaseSig; Step CaseSig; Step CaseSig;
         Deliver 100; Cancel Canceled; Step CaseDone; Step CaseDone]
        (call boot [100; -1]) = Some st ∧
    st_pc st = Lret (Some context_Canceled) ∧
    (∀ c, st_pc st = L53 c → w_handlers (st_world st) !! c = Some ∅) ∧
    (∀ s, EvRecv s ∉ st_trace st) ∧
    (∀ ret, st_pc st = Lret ret →
            ret = ctx_Err (w_ctx (st_world st)) ∧
            ctx_done (w_ctx (st_world st)) = true).
Proof.
  assert (∀ s, s ∈ [100; -1] → ¬ (0 ≤ s < numSig)) as Hout.
  { intros s Hs. assert (s = 100 ∨ s = -1) as [-> | ->] by set_solver;
      unfold numSig; lia. }
  eexists. split; [done|]. split; [exact Hout|].
  split; [vm_compute; reflexivity|]. split; [reflexivity|].
  eapply (out_of_range_signals_ignored boot [100; -1]
            [Step CaseSig; Step CaseSig; Step CaseSig; Step CaseSig;
             Deliver 100; Cancel Canceled; Step CaseDone; Step CaseDone]).
  - done.
  - exact Hout.
  - vm_compute. reflexivity.
Defined.

(** X14: once the [select] has chosen, the result is final.  Whatever
    happens next (more signals, a cancellation, the deferred
    [signal.Stop]), the call is still about to return, or has returned,
    the same value, and it receives nothing more. *)
Theorem result_is_final w0 sig sched st c ret sched2 st2 :
  run sched (call w0 sig) = Some st →
  st_pc st = Ldefer c ret →
  run sched2 st = Some st2 →
  (st_pc st2 = Ldefer c ret ∨ st_pc st2 = Lret ret) ∧
  (∀ s, EvRecv s ∈ st_trace st2 → EvRecv s ∈ st_trace st).
Proof.
  intros _ Hpc. clear sched w0 sig. revert st Hpc.
  induction sched2 as [|a sched2 IH]; intros st Hpc; simpl.
  { intros [= <-]. split; [by left|done]. }
  destruct (act a st) as [st1|] eqn:Ha; [|done]. simpl. intros Hrun.
  unfold act in Ha. destruct (w_alive (st_world st)); [|done].
  destruct st as [w p tr]; simpl in *. subst p.
  destruct a as [r|s0|pick].
  - injection Ha as <-. exact (IH (St _ _ _) eq_refl Hrun).
  - injection Ha as <-. exact (IH (St _ _ _) eq_refl Hrun).
  - unfold ListenForQuitSignal in Ha; simpl in Ha. injection Ha as <-.
    destruct (run_after_return sched2 (St _ _ _) st2 ret c eq_refl
                (lookup_delete_eq _ _) Hrun) as (Hp & Ht & _).
    split; [by right|]. rewrite Ht. simpl. set_solver.
Qed.

Lemma result_is_final_witness :
  ∃ st st2,
    run [Step CaseDone; Step CaseDone; Step CaseDone; Step CaseDone;
         Cancel Canceled; Step CaseDone] (call boot []) = Some st ∧
    st_pc st = Ldefer 1 (Some context_Canceled) ∧
    run [Deliver SIGINT; Step CaseSig; Deliver SIGTERM] st = Some st2 ∧
    (st_pc st2 = Ldefer 1 (Some context_Canceled) ∨
     st_pc st2 = Lret (Some context_Canceled)) ∧
    (∀ s, EvRecv s ∈ st_trace st2 → EvRecv s ∈ st_trace st).
Proof.
  eexists _, _. split; [vm_compute; reflexivity|]. split; [reflexivity|].
  split; [vm_compute; reflexivity|].
  eapply (result_is_final boot []
            [Step CaseDone; Step CaseDone; Step CaseDone; Step CaseDone;
             Cancel Canceled; Step CaseDone] _ 1 (Some context_Canceled)
            [Deliver SIGINT; Step CaseSig; Deliver SIGTERM]).
  - vm_compute. reflexivity.
  - reflexivity.
  - vm_compute. reflexivity.
Defined.

End ListenMore.

(** * WaitWithTimeout: further properties *)

Module WaitMore.
Import Wait WaitProofs.

(** Every action does the same under another context that is done, or not
    done, alike. *)
Lemma recancel_act f timeout a st st' ctx' :
  ctx_done ctx' = ctx_done (st_ctx st) →
  act timeout a st = Some st' →
  ∃ ctx'', ctx_done ctx'' = ctx_done (st_ctx st') ∧
           act timeout (recancel f a) (with_ctx ctx' st)
             = Some (with_ctx ctx'' st').
Proof.
  intros Hd. destruct st as [ctx now rec gos p tr]; simpl in *.
  destruct a as [r|d|pick|i|i r]; simpl.
  - intros [= <-]. exists (cancel (f r) ctx'). split; [|done].
    unfold cancel. rewrite Hd. destruct (ctx_done ctx) eqn:E; simpl; congruence.
  - case_bool_decide; [|done]. intros [= <-]. by exists ctx'.
  - unfold WaitWithTimeout, with_ctx; simpl. rewrite Hd.
    destruct p as [| | | |tm|ret]; simpl.
    + destruct (ctx_done ctx) eqn:E; [|done]. intros [= <-]. exists ctx'.
      simpl. by rewrite E.
    + intros [= <-]. by exists ctx'.
    + intros [= <-]. by exists ctx'.
    + intros [= <-]. by exists ctx'.
    + destruct pick.
      * destruct (rec ≫= chan_recv) as [[err ch]|]; [|done].
        intros [= <-]. by exists ctx'.
      * destruct (timer_fired tm now); [|done]. intros [= <-]. by exists ctx'.
    + done.
  - unfold goroutine, with_ctx; simpl.
    destruct (gos !! i) as [[| |r|]|]; try done.
    + intros [= <-]. by exists ctx'.
    + destruct (rec ≫= λ ch, chan_send ch r) as [ch|]; [|done]. simpl.
      intros [= <-]. by exists ctx'.
  - unfold wait_returns, with_ctx; simpl.
    destruct (gos !! i) as [[| |r'|]|]; try done.
    intros [= <-]. by exists ctx'.
Qed.

(** X9: the call does not look at why the context was cancelled.  Run with
    any other reasons of cancellation, from any context that is done, or
    not done, like the original one, the same schedule gives the same
    result, the same history, and the same goroutine, channel and clock. *)
Theorem reason_is_ignored f timeout ctx ctx' now sched st :
  ctx_done ctx' = ctx_done ctx →
  run timeout sched (call ctx now) = Some st →
  ∃ ctx'', ctx_done ctx'' = ctx_done (st_ctx st) ∧
           run timeout (recancel f <$> sched) (call ctx' now)
             = Some (with_ctx ctx'' st).
Proof.
  intros Hd. change (call ctx' now) with (with_ctx ctx' (call ctx now)).
  assert (ctx_done ctx' = ctx_done (st_ctx (call ctx now))) as Hd' by done.
  clear Hd. revert Hd'. generalize (call ctx now). revert ctx'.
  induction sched as [|a sched IH]; intros ctx' st0 Hd; simpl.
  - intros [= <-]. by exists ctx'.
  - destruct (act timeout a st0) as [st1|] eqn:Ha; [|done]. simpl.
    destruct (recancel_act f _ _ _ _ ctx' Hd Ha) as (ctx1 & Hd1 & ->). simpl.
    by apply IH.
Qed.

Lemma reason_is_ignored_witness :
  ∃ st,
    ctx_done (Ctx false None) = ctx_done context_Background ∧
    run 1000
      [Cancel Canceled; Main CaseRec; Main CaseRec; Main CaseRec;
       Main CaseRec; Go 0%nat; WaitReturns 0%nat None; Go 0%nat;
       Main CaseRec] (call context_Background 0) = Some st ∧
    st_pc st = Wret None ∧
    ∃ ctx'', ctx_done ctx'' = ctx_done (st_ctx st) ∧
             run 1000
               (recancel (λ _, DeadlineExceeded) <$>
                  [Cancel Canceled; Main CaseRec; Main CaseRec; Main CaseRec;
                   Main CaseRec; Go 0%nat; WaitReturns 0%nat None; Go 0%nat;
                   Main CaseRec])
               (call (Ctx false None) 0)
               = Some (with_ctx ctx'' st).
Proof.
  eexists. split; [reflexivity|]. split; [vm_compute; reflexivity|].
  split; [reflexivity|].
  eapply (reason_is_ignored (λ _, DeadlineExceeded) 1000 context_Background
            (Ctx false None) 0
            [Cancel Canceled; Main CaseRec; Main CaseRec; Main CaseRec;
             Main CaseRec; Go 0%nat; WaitReturns 0%nat None; Go 0%nat;
             Main CaseRec]).
  - reflexivity.
  - vm_compute. reflexivity.
Defined.

Lemma elem_of_mlog_inv e tr : e ∈ mlog tr → e ∈ tr.
Proof.
  intros He. apply list_elem_of_In. apply list_elem_of_In in He.
  by apply List.filter_In in He as [? _].
Qed.

(** A timer started while the clock is in range is due after the full
    duration, or at the end of time. *)
Lemma when_due t0 d :
  0 ≤ t0 < 2 ^ 63 → 0 < d < 2 ^ 63 →
  when t0 d = t0 + d ∨ when t0 d = maxInt64.
Proof.
  intros Ht Hd. unfold when, int64_wrap, maxInt64.
  rewrite bool_decide_eq_false_2 by lia.
  destruct (decide (t0 + d < 2 ^ 63)) as [Hs|Hs].
  - left. rewrite Z.mod_small by lia.
    rewrite bool_decide_eq_false_2 by lia. lia.
  - right. rewrite bool_decide_eq_true_2; [done|].
    assert ((t0 + d + 2 ^ 63) `mod` 2 ^ 64 = t0 + d + 2 ^ 63 - 2 ^ 64) as ->;
      [|lia].
    symmetry. apply (Z.mod_unique_pos _ _ 1); lia.
Qed.

Lemma on_time_act timeout t1 a st st' :
  0 ≤ t1 → 0 < timeout < 2 ^ 63 →
  on_time timeout t1 st → act timeout a st = Some st' →
  on_time timeout t1 st'.
Proof.
  intros Ht1 Hto. destruct st as [ctx now rec gos p tr].
  unfold on_time; simpl. intros [Hnow Hp].
  destruct a as [r|d|pick|i|i r]; simpl.
  - intros [= <-]; simpl. done.
  - case_bool_decide as Hd; [|done]. intros [= <-]; simpl.
    split; [lia|]. destruct p as [| | | |tm|ret]; try done.
    + destruct Hp as (? & t0 & ? & ? & ?). split; [done|].
      exists t0. split_and!; [done|lia|done].
    + intros Hin Hmax. assert (t1 + timeout ≤ now); [|lia].
      apply Hp; [done|lia].
  - unfold WaitWithTimeout; simpl.
    destruct p as [| | | |tm|ret]; simpl.
    + destruct (ctx_done ctx); [|done]. by intros [= <-].
    + by intros [= <-].
    + intros [= <-]; simpl. split; [done|]. set_solver.
    + intros [= <-]; simpl. split_and!; [done..|]. exists now. by split_and!.
    + destruct Hp as (Hno & t0 & Ht0 & Ht0' & ->). destruct pick.
      * destruct (rec ≫= chan_recv) as [[err ch]|]; [|done].
        intros [= <-]; simpl. split; [done|]. set_solver.
      * unfold timer_fired. case_bool_decide as Hf; [|done].
        intros [= <-]; simpl. split; [done|]. intros _ Hmax.
        destruct (when_due t0 timeout) as [E|E]; [unfold maxInt64 in *; lia|done|..];
          rewrite E in Hf; lia.
    + done.
  - unfold goroutine; simpl.
    destruct (gos !! i) as [[| |r|]|]; try done.
    + intros [= <-]; simpl. split; [done|].
      destruct p; try set_solver.
    + destruct (rec ≫= λ ch, chan_send ch r) as [ch|]; [|done]. simpl.
      intros [= <-]; simpl. split; [done|].
      destruct p; try set_solver.
  - unfold wait_returns; simpl.
    destruct (gos !! i) as [[| |r'|]|]; try done.
    intros [= <-]; simpl. split; [done|].
    destruct p; try set_solver.
Qed.

Lemma on_time_run timeout t1 sched st st' :
  0 ≤ t1 → 0 < timeout < 2 ^ 63 →
  on_time timeout t1 st → run timeout sched st = Some st' →
  on_time timeout t1 st'.
Proof.
  intros Ht1 Hto. revert st.
  induction sched as [|a sched IH]; intros st Hon; simpl.
  - by intros [= <-].
  - destruct (act timeout a st) as [st1|] eqn:Ha; [|done]. simpl.
    apply IH. by eapply on_time_act.
Qed.

(** X10: the timeout is counted from the [select], after cancellation was
    seen, not from the call.  Take any moment at which the call still waits
    at line 103: if it later returns the timeout error, the clock has by
    then advanced by at least [timeout] since that moment; so a call that
    returns sooner returns what [wait] returned.  (The duration is positive
    and the clock stays within [int64].) *)
Theorem timeout_not_early timeout ctx now0 sched1 st1 sched2 st2 ret :
  0 ≤ st_now st1 → 0 < timeout < 2 ^ 63 →
  run timeout sched1 (call ctx now0) = Some st1 →
  st_pc st1 = W103 →
  run timeout sched2 st1 = Some st2 →
  st_pc st2 = Wret ret →
  st_now st2 < maxInt64 →
  (EvTimeout ∈ st_trace st2 → st_now st1 + timeout ≤ st_now st2) ∧
  (st_now st2 < st_now st1 + timeout →
   EvRecv ret ∈ st_trace st2 ∧ returned (st_trace st2) = [ret]).
Proof.
  intros Hn Hto Hrun1 Hpc1 Hrun2 Hpc2 Hmax.
  assert (on_time timeout (st_now st1) st2) as [_ Hon].
  { eapply on_time_run; [done..| |done]. unfold on_time. rewrite Hpc1.
    split; [lia|]. apply wait_inv_run in Hrun1. unfold inv in Hrun1.
    rewrite Hpc1 in Hrun1. destruct Hrun1 as (_ & _ & ->). set_solver. }
  rewrite Hpc2 in Hon.
  split; [intros Hin; by apply Hon|].
  intros Hearly.
  assert (run timeout (sched1 ++ sched2) (call ctx now0) = Some st2) as Hrun.
  { rewrite wait_run_app, Hrun1. done. }
  apply wait_inv_run in Hrun. unfold inv in Hrun. rewrite Hpc2 in Hrun.
  destruct Hrun as (_ & [[_ Hrace]|(_ & _ & Htr)]).
  - destruct Hrace as (g & buf & tr' & _ & _ & Htr & _ & Hm).
    assert (EvTimeout ∈ st_trace st2).
    { rewrite Htr. right. apply (elem_of_mlog_inv _ tr'). rewrite Hm.
      set_solver. }
    specialize (Hon H Hmax). lia.
  - rewrite Htr. split; [set_solver|done].
Qed.

Lemma timeout_not_early_witness :
  ∃ st1 st2,
    run 1000 [Tick 5000] (call context_Background 0) = Some st1 ∧
    st_pc st1 = W103 ∧
    run 1000
      [Cancel Canceled; Main CaseRec; Main CaseRec; Main CaseRec;
       Main CaseRec; Go 0%nat; Tick 1000; Main CaseTimer] st1 = Some st2 ∧
    st_pc st2 = Wret (Some ErrWaitDeadlineExceeded) ∧
    0 ≤ st_now st1 ∧ 0 < 1000 < 2 ^ 63 ∧
    st_now st2 < maxInt64 ∧
    (EvTimeout ∈ st_trace st2 → st_now st1 + 1000 ≤ st_now st2) ∧
    (st_now st2 < st_now st1 + 1000 →
     EvRecv (Some ErrWaitDeadlineExceeded) ∈ st_trace st2 ∧
     returned (st_trace st2) = [Some ErrWaitDeadlineExceeded]).
Proof.
  eexists _, _. split; [vm_compute; reflexivity|]. split; [reflexivity|].
  split; [vm_compute; reflexivity|]. split; [reflexivity|].
  split; [simpl; lia|]. split; [lia|]. split; [by vm_compute|].
  eapply (timeout_not_early 1000 context_Background 0 [Tick 5000] _
            [Cancel Canceled; Main CaseRec; Main CaseRec; Main CaseRec;
             Main CaseRec; Go 0%nat; Tick 1000; Main CaseTimer]).
  - simpl. lia.
  - lia.
  - vm_compute. reflexivity.
  - reflexivity.
  - vm_compute. reflexivity.
  - reflexivity.
  - by vm_compute.
Defined.

Lemma returned_snoc tr e :
  returned (tr ++ [e]) =
  returned tr ++ match e with EvReturn r => [r] | _ => [] end.
Proof.
  unfold returned. rewrite List.flat_map_app. simpl. by rewrite app_nil_r.
Qed.

(** X11: a [wait] that hangs cannot hold the caller.  Once the context is
    done, the caller's own steps and the passing of time are enough for it
    to return [ErrWaitDeadlineExceeded], whatever the timeout, without
    [wait] being invoked or returning in between. *)
Theorem hanging_wait_cannot_block timeout ctx now0 sched st :
  run timeout sched (call ctx now0) = Some st →
  ctx_done (st_ctx st) = true →
  (∀ ret, st_pc st ≠ Wret ret) →
  ∃ d st',
    0 ≤ d ∧
    run timeout
      (replicate (pred (remaining (st_pc st))) (Main CaseTimer)
       ++ [Tick d; Main CaseTimer]) st = Some st' ∧
    st_pc st' = Wret (Some ErrWaitDeadlineExceeded) ∧
    invocations (st_trace st') = invocations (st_trace st) ∧
    returned (st_trace st') = returned (st_trace st).
Proof.
  intros _ Hd Hnr. destruct st as [c n rec gos p tr]; simpl in *.
  assert (∀ tm, timer_fired tm (n + Z.max 0 (tm - n)) = true) as Hf.
  { intros tm. unfold timer_fired. apply bool_decide_eq_true_2. lia. }
  destruct p as [| | | |tm|ret].
  1-4: exists (Z.max 0 (when n timeout - n)).
  5: exists (Z.max 0 (tm - n)).
  1-5: simpl; rewrite ?Hd; simpl;
    rewrite bool_decide_eq_true_2 by lia; simpl; rewrite Hf;
    eexists; split; [lia|]; split; [done|]; simpl;
    rewrite ?invocations_snoc, ?returned_snoc, ?app_nil_r; simpl;
    split_and!; [done|lia|done].
  by destruct (Hnr ret).
Qed.

Lemma hanging_wait_cannot_block_witness :
  ∃ st,
    run 1000
      [Cancel Canceled; Main CaseRec; Main CaseRec; Main CaseRec; Go 0%nat]
      (call context_Background 7) = Some st ∧
    ctx_done (st_ctx st) = true ∧
    (∀ ret, st_pc st ≠ Wret ret) ∧
    st_gos st = [Gwait] ∧
    ∃ d st',
      0 ≤ d ∧
      run 1000
        (replicate (pred (remaining (st_pc st))) (Main CaseTimer)
         ++ [Tick d; Main CaseTimer]) st = Some st' ∧
      st_pc st' = Wret (Some ErrWaitDeadlineExceeded) ∧
      invocations (st_trace st') = invocations (st_trace st) ∧
      returned (st_trace st') = returned (st_trace st).
Proof.
  eexists. split; [vm_compute; reflexivity|]. split; [reflexivity|].
  split; [done|]. split; [reflexivity|].
  eapply (hanging_wait_cannot_block 1000 context_Background 7
            [Cancel Canceled; Main CaseRec; Main CaseRec; Main CaseRec;
             Go 0%nat]).
  - vm_compute. reflexivity.
  - reflexivity.
  - done.
Defined.

Lemma elem_of_returned r tr : r ∈ returned tr → EvReturn r ∈ tr.
Proof.
  unfold returned. induction tr as [|e tr IH]; simpl; [set_solver|].
  rewrite elem_of_app. intros [Hr|Hr]; [|right; by apply IH].
  destruct e; try set_solver.
Qed.

(** A value [wait] has returned comes from an action of the schedule. *)
Lemma return_provenance timeout ctx now sched st r :
  run timeout sched (call ctx now) = Some st →
  EvReturn r ∈ st_trace st → ∃ i, WaitReturns i r ∈ sched.
Proof.
  revert st. induction sched as [|a sched IH] using rev_ind; intros st.
  { intros [= <-]. simpl. set_solver. }
  rewrite wait_run_snoc.
  destruct (run timeout sched (call ctx now)) as [st1|]; [|done]. simpl.
  specialize (IH st1 eq_refl).
  assert (EvReturn r ∈ st_trace st1 → ∃ i, WaitReturns i r ∈ sched ++ [a])
    as IH'.
  { intros Hr. destruct (IH Hr) as [i Hi]. exists i. set_solver. }
  destruct st1 as [c n rec gos p tr]; simpl in *.
  destruct a as [r'|d|pick|i|i r']; simpl.
  - by intros [= <-].
  - case_bool_decide; [|done]. by intros [= <-].
  - unfold WaitWithTimeout; simpl.
    destruct p as [| | | |tm|ret]; simpl; try (by intros [= <-]).
    + destruct (ctx_done c); [|done]. by intros [= <-].
    + intros [= <-]; simpl. intros Hr. apply IH'. set_solver.
    + destruct pick.
      * destruct (rec ≫= chan_recv) as [[err ch]|]; [|done].
        intros [= <-]; simpl. intros Hr. apply IH'. set_solver.
      * destruct (timer_fired tm n); [|done].
        intros [= <-]; simpl. intros Hr. apply IH'. set_solver.
  - unfold goroutine; simpl.
    destruct (gos !! i) as [[| |r0|]|]; try done.
    + intros [= <-]; simpl. intros Hr. apply IH'. set_solver.
    + destruct (rec ≫= λ ch, chan_send ch r0) as [ch|]; [|done]. simpl.
      intros [= <-]; simpl. intros Hr. apply IH'. set_solver.
  - unfold wait_returns; simpl.
    destruct (gos !! i) as [[| |r0|]|]; try done.
    intros [= <-]; simpl. intros Hr.
    assert (EvReturn r ∈ tr ∨ r = r') as [?| ->] by set_solver;
      [by apply IH'|].
    exists i. set_solver.
Qed.

(** X12: when [wait] never returns during the call, a call that returns
    returns [ErrWaitDeadlineExceeded], by the timer, and leaves its
    goroutine behind, about to call [wait] or inside it. *)
Theorem wait_never_returns timeout ctx now sched st ret :
  (∀ i r, WaitReturns i r ∉ sched) →
  run timeout sched (call ctx now) = Some st →
  st_pc st = Wret ret →
  ret = Some ErrWaitDeadlineExceeded ∧
  EvTimeout ∈ st_trace st ∧
  returned (st_trace st) = [] ∧
  (st_gos st = [Gcall] ∨ st_gos st = [Gwait]).
Proof.
  intros Hno Hrun Hpc.
  assert (∀ r, EvReturn r ∉ st_trace st) as Hnr.
  { intros r Hr. destruct (return_provenance _ _ _ _ _ _ Hrun Hr) as [i Hi].
    by destruct (Hno i r). }
  apply wait_inv_run in Hrun. unfold inv in Hrun. rewrite Hpc in Hrun.
  destruct Hrun as (_ & [[-> Hrace]|(_ & _ & Htr)]).
  - assert (EvTimeout ∈ st_trace st) as Ht.
    { destruct Hrace as (g & buf & tr' & _ & _ & -> & _ & Hm).
      right. apply (elem_of_mlog_inv _ tr'). rewrite Hm. set_solver. }
    destruct (racing_counts _ _ _ _ Hrace) as (g & buf & -> & _ & _ & Hcnt).
    destruct g as [| |r|].
    + destruct Hcnt as (_ & ? & _). split_and!; try done. by left.
    + destruct Hcnt as (_ & ? & _). split_and!; try done. by right.
    + destruct Hcnt as (_ & Hr & _). destruct (Hnr r).
      apply elem_of_returned. rewrite Hr. set_solver.
    + destruct Hcnt as (r & _ & Hr & _). destruct (Hnr r).
      apply elem_of_returned. rewrite Hr. set_solver.
  - destruct (Hnr ret). rewrite Htr. set_solver.
Qed.

Lemma wait_never_returns_witness :
  ∃ st ret,
    (∀ i r, WaitReturns i r ∉
              [Cancel Canceled; Main CaseRec; Main CaseRec; Main CaseRec;
               Main CaseRec; Go 0%nat; Tick 1000; Main CaseTimer]) ∧
    run 1000
      [Cancel Canceled; Main CaseRec; Main CaseRec; Main CaseRec;
       Main CaseRec; Go 0%nat; Tick 1000; Main CaseTimer]
      (call context_Background 0) = Some st ∧
    st_pc st = Wret ret ∧
    ret = Some ErrWaitDeadlineExceeded ∧
    EvTimeout ∈ st_trace st ∧
    returned (st_trace st) = [] ∧
    (st_gos st = [Gcall] ∨ st_gos st = [Gwait]).
Proof.
  assert (∀ i r, WaitReturns i r ∉
                   [Cancel Canceled; Main CaseRec; Main CaseRec; Main CaseRec;
                    Main CaseRec; Go 0%nat; Tick 1000; Main CaseTimer])
    as Hno by set_solver.
  eexists _, _. split; [exact Hno|]. split; [vm_compute; reflexivity|].
  split; [reflexivity|].
  eapply (wait_never_returns 1000 context_Background 0).
  - exact Hno.
  - vm_compute. reflexivity.
  - reflexivity.
Defined.




End WaitMore.
